(** * Rate-limited execution core of rapid-prototype-llm-typescript

    A shallow embedding of
      - services/rateLimiter/syncRateLimiter.ts   (SyncRateLimiter),
      - services/rateLimiter/asyncRateLimiter.ts  (AsyncRateLimiter),
      - services/llmProviders/promptRunnerInterface.ts (PromptUtils),
    and the properties the specification states about them.

    Conventions.  A JavaScript number of this code is a count (of
    milliseconds, of requests) and is modelled by [Z]; [None : option Z]
    stands for [undefined] read from an array and for the [NaN] computed
    from it.  Arrays are lists, [a.push(x)] is [a ++ [x]], [a[i]] is the
    list lookup [a !! i].  [Date.now()] and the instants at which timers
    and promises settle belong to the environment: they are inputs of the
    model, and the theorems say which assumptions on them they need. *)

From Stdlib Require Import ZArith Lia Ascii.
From stdpp Require Import base tactics option list numbers strings relations gmap sorting.

Local Open Scope Z_scope.

(* ===================================================================== *)
(** ** syncRateLimiter.ts *)
(* ===================================================================== *)

Module SyncRateLimiter.

(** [interface syncRateLimiterConfig] *)
Record syncRateLimiterConfig : Type := {
  minRequestInterval : Z;
  rateLimitWindow : Z;
  maxRequestsPerWindow : Z;
  rateLimitResetBuffer : Z
}.

(** The two private fields of [class SyncRateLimiter]. *)
Record SyncRateLimiter : Type := {
  requestTimes : list Z;
  lastRequestTime : Z
}.

(** [requestTimes = []; lastRequestTime = 0] *)
Definition initial : SyncRateLimiter :=
  {| requestTimes := []; lastRequestTime := 0 |}.

(** What one call of [waitForRateLimit] does: the delays it hands to
    [setTimeout], in order ([None] is a [NaN] delay), and the limiter it
    leaves behind. *)
Record Admission : Type := {
  suspensions : list (option Z);
  limiter : SyncRateLimiter
}.

(** [this.requestTimes.filter(time => now - time < this.config.rateLimitWindow)] *)
Definition prune (config : syncRateLimiterConfig) (now : Z) (times : list Z) : list Z :=
  filter (λ time, now - time < rateLimitWindow config) times.

(** [this.requestTimes.length >= this.config.maxRequestsPerWindow] *)
Definition overLimit (config : syncRateLimiterConfig) (times : list Z) : bool :=
  bool_decide (maxRequestsPerWindow config ≤ Z.of_nat (length times)).

(** [this.requestTimes[0]] *)
Definition oldestRequest (times : list Z) : option Z := times !! 0%nat.

(** [rateLimitWindow - (now - oldestRequest) + rateLimitResetBuffer];
    arithmetic on [undefined] gives [NaN]. *)
Definition waitTime (config : syncRateLimiterConfig) (now : Z) (oldest : option Z) : option Z :=
  (λ o, rateLimitWindow config - (now - o) + rateLimitResetBuffer config) <$> oldest.

(** [waitForRateLimit()].  [now] is the reading of [Date.now()] on entry
    (line 25), [resumed] the reading on line 51, after the awaits. *)
Definition waitForRateLimit (config : syncRateLimiterConfig) (self : SyncRateLimiter)
    (now resumed : Z) : Admission :=
  let pruned := prune config now (requestTimes self) in
  let '(waits1, times) :=
    if overLimit config pruned
    then ([waitTime config now (oldestRequest pruned)], [])
    else ([], pruned) in
  let timeSinceLastRequest := now - lastRequestTime self in
  let waits2 :=
    if bool_decide (timeSinceLastRequest < minRequestInterval config)
    then [Some (minRequestInterval config - timeSinceLastRequest)]
    else [] in
  {| suspensions := waits1 ++ waits2;
     limiter := {| requestTimes := times ++ [resumed]; lastRequestTime := resumed |} |}.

(** The total time a call asks its timers for; [None] when a delay is [NaN]. *)
Definition totalSuspension (waits : list (option Z)) : option Z :=
  foldr (λ w acc, match w, acc with
                  | Some delay, Some rest => Some (delay + rest)
                  | _, _ => None
                  end) (Some 0) waits.

(** A sequence of calls on one limiter, each given by its two clock
    readings; a call is over before the next begins (the limiter is a
    single-lane primitive).  Returns the calls' outcomes, oldest first. *)
Fixpoint calls (config : syncRateLimiterConfig) (self : SyncRateLimiter)
    (clock : list (Z * Z)) : list Admission :=
  match clock with
  | [] => []
  | (now, resumed) :: clock' =>
      let a := waitForRateLimit config self now resumed in
      a :: calls config (limiter a) clock'
  end.

(** The timestamps at which the calls were let through: what each call
    stored in [lastRequestTime]. *)
Definition admissions (config : syncRateLimiterConfig) (self : SyncRateLimiter)
    (clock : list (Z * Z)) : list Z :=
  (λ a, lastRequestTime (limiter a)) <$> calls config self clock.

(** The environment's side of a sequence of calls, part one: the clock
    never runs backwards.  A call starts no earlier than [from] (the
    previous admission) and resumes no earlier than it started. *)
Fixpoint monotonic (from : Z) (clock : list (Z * Z)) : Prop :=
  match clock with
  | [] => True
  | (now, resumed) :: clock' =>
      from ≤ now ∧ now ≤ resumed ∧ monotonic resumed clock'
  end.

(** Part two: no timer fires early.  A call resumes no earlier than its
    start plus the delays it asked for. *)
Fixpoint timersOnTime (config : syncRateLimiterConfig) (self : SyncRateLimiter)
    (clock : list (Z * Z)) : Prop :=
  match clock with
  | [] => True
  | (now, resumed) :: clock' =>
      let a := waitForRateLimit config self now resumed in
      (∀ total, totalSuspension (suspensions a) = Some total → now + total ≤ resumed) ∧
      timersOnTime config (limiter a) clock'
  end.

(** How many of [times] lie in the trailing window of length [window]
    that ends at [t], i.e. in (t - window, t]. *)
Definition inWindow (window t : Z) (times : list Z) : nat :=
  length (filter (λ time, t - time < window ∧ time ≤ t) times).

(** The limiter's own count at time [t]: the entries pruning would keep. *)
Definition recent (window t : Z) (times : list Z) : nat :=
  length (filter (λ time, t - time < window) times).

(** The data model's invariant on a configuration: durations are not
    negative and the limit is positive. *)
Definition nonNegative (config : syncRateLimiterConfig) : Prop :=
  0 ≤ minRequestInterval config ∧ 0 ≤ rateLimitWindow config ∧
  0 ≤ rateLimitResetBuffer config ∧ 0 < maxRequestsPerWindow config.

(** Entries of the log never lie in the future of the last admission. *)
Definition logInPast (self : SyncRateLimiter) : Prop :=
  Forall (λ t, t ≤ lastRequestTime self) (requestTimes self).

(** The admissions made so far ([history]) are the log of the limiter
    together with those it has forgotten, by pruning or by clearing the
    log.  The log holds at most [maxRequestsPerWindow] entries, none older
    than a forgotten one, and fewer than [maxRequestsPerWindow] forgotten
    admissions are still inside the window of the last admission. *)
Record Remembered (config : syncRateLimiterConfig) (self : SyncRateLimiter)
    (history forgotten : list Z) : Prop := {
  rem_split : history ≡ₚ forgotten ++ requestTimes self;
  rem_past : Forall (λ t, t ≤ lastRequestTime self) history;
  rem_order : ∀ f l, f ∈ forgotten → l ∈ requestTimes self → f ≤ l;
  rem_log : Z.of_nat (length (requestTimes self)) ≤ maxRequestsPerWindow config;
  rem_forgotten :
    Z.of_nat (recent (rateLimitWindow config) (lastRequestTime self) forgotten)
    < maxRequestsPerWindow config
}.

(** Successive timestamps, the first counted from [previous], are at
    least [gap] apart. *)
Fixpoint spaced (gap previous : Z) (times : list Z) : Prop :=
  match times with
  | [] => True
  | t :: times' => previous + gap ≤ t ∧ spaced gap t times'
  end.

(** The specification's bound on a sequence of calls: no trailing window
    of length [rateLimitWindow] holds more than [maxRequestsPerWindow]
    admissions. *)
Definition windowBounded (config : syncRateLimiterConfig) (clock : list (Z * Z)) : Prop :=
  ∀ t, Z.of_nat (inWindow (rateLimitWindow config) t (admissions config initial clock))
       ≤ maxRequestsPerWindow config.

(** A call whose delays are numbers that add up to at most [bound]. *)
Definition suspendedAtMost (bound : Z) (a : Admission) : Prop :=
  ∃ total, totalSuspension (suspensions a) = Some total ∧ 0 ≤ total ≤ bound.

(** A run of four calls with two requests per second allowed: two
    admissions, a third call that waits for the window and clears the
    log, and a fourth call 150 ms after the third was let through. *)
Definition burstConfig : syncRateLimiterConfig :=
  {| minRequestInterval := 100; rateLimitWindow := 1000;
     maxRequestsPerWindow := 2; rateLimitResetBuffer := 50 |}.

Definition burstClock : list (Z * Z) :=
  [(10000, 10000); (10500, 10500); (10600, 11050); (11200, 11200)].

(** A run of two calls 10 ms apart with one request per second allowed:
    the second call waits for the window and then for the minimum
    interval. *)
Definition tightConfig : syncRateLimiterConfig :=
  {| minRequestInterval := 100; rateLimitWindow := 1000;
     maxRequestsPerWindow := 1; rateLimitResetBuffer := 50 |}.

Definition tightClock : list (Z * Z) := [(5000, 5000); (5010, 6140)].

End SyncRateLimiter.

(* ===================================================================== *)
(** ** JavaScript values the code inspects *)
(* ===================================================================== *)

Module Js.

(** A thrown or rejected value (TypeScript's [unknown]), by what the code
    reads of it: whether it is an instance of [Error], then its [name]
    and [message]; and whether the AI SDK's
    [NoObjectGeneratedError.isInstance] accepts it (the SDK tests a
    marker property of the value). *)
Inductive JsValue : Type :=
| ErrorObject (name message : string) (noObjectGenerated : bool)
| OtherValue (description : string) (noObjectGenerated : bool).

(** [value instanceof Error] *)
Definition instanceofError (value : JsValue) : bool :=
  match value with
  | ErrorObject _ _ _ => true
  | OtherValue _ _ => false
  end.

(** [new Error(message)] *)
Definition new_Error (message : string) : JsValue :=
  ErrorObject "Error" message false.

(** [PromiseSettledResult<R>]; also the outcome of awaiting a promise. *)
Inductive PromiseSettledResult (R : Type) : Type :=
| fulfilled (value : R)
| rejected (reason : JsValue).
Global Arguments fulfilled {R} value.
Global Arguments rejected {R} reason.

(** A promise, once settled: its outcome and the instant it settled at. *)
Record Promise (R : Type) : Type := {
  settledAt : nat;
  outcome : PromiseSettledResult R
}.
Global Arguments settledAt {R} _.
Global Arguments outcome {R} _.

(** [Promise.allSettled(promises)]: the outcomes in the order of the
    array [promises], whichever promise settled first. *)
Definition Promise_allSettled {R : Type} (promises : list (Promise R))
  : list (PromiseSettledResult R) :=
  outcome <$> promises.

(** [s.includes(searchString)] *)
Fixpoint includes (s searchString : string) : bool :=
  String.prefix searchString s ||
  match s with
  | EmptyString => false
  | String _ s' => includes s' searchString
  end.

End Js.

(* ===================================================================== *)
(** ** asyncRateLimiter.ts *)
(* ===================================================================== *)

Module AsyncRateLimiter.
Import Js.

(** [interface AsyncRateLimiterConfig]; [minTime] is optional. *)
Record AsyncRateLimiterConfig : Type := {
  maxConcurrent : Z;
  intervalCap : Z;
  interval : Z;
  minTime : option Z
}.

(** The options object the constructor hands to [new Bottleneck]. *)
Record BottleneckOptions : Type := {
  bn_maxConcurrent : Z;
  reservoir : Z;
  reservoirRefreshAmount : Z;
  reservoirRefreshInterval : Z;
  bn_minTime : Z
}.

(** [Math.ceil(a / b)] on integers, for a positive [b]. *)
Definition ceilDiv (a b : Z) : Z := - ((- a) / b).

(** Modelled from the spec: the dispatcher of Bottleneck, the npm library
    [AsyncRateLimiter] delegates to; its code is not part of the
    repository.  Section 4.2 of the specification gives its state (a FIFO
    queue of submitted jobs, the jobs in flight, the reservoir) and its
    dispatch rule.  Jobs are numbered in submission order. *)
Record Bottleneck : Type := {
  options : BottleneckOptions;
  submitted : nat;
  queue : list nat;
  inFlight : list nat;
  tokens : Z;
  lastDispatch : option Z;
  time : Z
}.

(** Modelled from the spec: a new limiter has nothing queued or in flight
    and a full reservoir. *)
Definition new_Bottleneck (opts : BottleneckOptions) : Bottleneck :=
  {| options := opts; submitted := 0; queue := []; inFlight := [];
     tokens := reservoir opts; lastDispatch := None; time := 0 |}.

(** Modelled from the spec: [limiter.schedule(fn)] puts one more job at
    the back of the queue. *)
Definition submit (b : Bottleneck) : Bottleneck :=
  {| options := options b; submitted := S (submitted b);
     queue := queue b ++ [submitted b]; inFlight := inFlight b;
     tokens := tokens b; lastDispatch := lastDispatch b; time := time b |}.

(** Modelled from the spec: the dispatch rule.  A job is let through only
    when (a) fewer than [maxConcurrent] jobs are in flight, (b) the
    reservoir holds a token, (c) [minTime] has passed since the previous
    dispatch. *)
Definition mayDispatch (b : Bottleneck) : bool :=
  bool_decide (Z.of_nat (length (inFlight b)) < bn_maxConcurrent (options b)) &&
  bool_decide (1 ≤ tokens b) &&
  match lastDispatch b with
  | None => true
  | Some previous => bool_decide (previous + bn_minTime (options b) ≤ time b)
  end.

(** Modelled from the spec: what can happen to a limiter.  A job is
    submitted; the job at the head of the queue is dispatched, taking a
    token; a job in flight settles (its token is not given back); the
    reservoir is refilled; time passes. *)
Inductive step : Bottleneck → Bottleneck → Prop :=
| step_submit b :
    step b (submit b)
| step_dispatch b job rest :
    queue b = job :: rest → mayDispatch b = true →
    step b {| options := options b; submitted := submitted b;
              queue := rest; inFlight := inFlight b ++ [job];
              tokens := tokens b - 1; lastDispatch := Some (time b); time := time b |}
| step_settle b job :
    job ∈ inFlight b →
    step b {| options := options b; submitted := submitted b;
              queue := queue b; inFlight := filter (λ j, j ≠ job) (inFlight b);
              tokens := tokens b; lastDispatch := lastDispatch b; time := time b |}
| step_refill b :
    step b {| options := options b; submitted := submitted b;
              queue := queue b; inFlight := inFlight b;
              tokens := reservoirRefreshAmount (options b);
              lastDispatch := lastDispatch b; time := time b |}
| step_tick b elapsed :
    0 ≤ elapsed →
    step b {| options := options b; submitted := submitted b;
              queue := queue b; inFlight := inFlight b;
              tokens := tokens b; lastDispatch := lastDispatch b;
              time := time b + elapsed |}.

(** What [new AsyncRateLimiter(config)] does: it throws, or it builds the
    limiter. *)
Inductive Constructed : Type :=
| Throws (error : JsValue)
| Built (limiter : Bottleneck).

(** [constructor(config)] *)
Definition constructor (config : AsyncRateLimiterConfig) : Constructed :=
  if bool_decide (maxConcurrent config ≤ 0) then
    Throws (new_Error "maxConcurrent must be greater than 0")
  else if bool_decide (intervalCap config < maxConcurrent config) then
    Throws (new_Error "intervalCap must be greater than or equal to maxConcurrent")
  else if bool_decide (interval config ≤ 0) then
    Throws (new_Error "interval must be greater than 0")
  else if match minTime config with
          | Some m => bool_decide (m ≤ 0)
          | None => false
          end then
    Throws (new_Error "minTime, if specified, must be greater than 0")
  else
    Built (new_Bottleneck
      {| bn_maxConcurrent := maxConcurrent config;
         reservoir := intervalCap config;
         reservoirRefreshAmount := intervalCap config;
         reservoirRefreshInterval := interval config;
         bn_minTime := default (ceilDiv (interval config) (intervalCap config))
                               (minTime config) |}).

(** The validation rules in the words of the specification. *)
Definition validConfig (config : AsyncRateLimiterConfig) : Prop :=
  0 < maxConcurrent config ∧
  maxConcurrent config ≤ intervalCap config ∧
  0 < interval config ∧
  (∀ m, minTime config = Some m → 0 < m).

(** [interface ProcessingError<T>]; [item] is what [items[index]] read. *)
Record ProcessingError (T : Type) : Type := {
  item : option T;
  error : JsValue
}.
Global Arguments item {T} _.
Global Arguments error {T} _.

(** [type ResultAccumulator] *)
Record ResultAccumulator (T R : Type) : Type := {
  successful : list R;
  failed : list (ProcessingError T)
}.
Global Arguments successful {T R} _.
Global Arguments failed {T R} _.

Section ProcessItems.
Context {T R : Type}.

(** The environment: the instant at which the limiter lets the job with
    a given number settle. *)
Variable settles : nat → nat.

(** Modelled from the spec: [limiter.schedule(fn)] of Bottleneck, whose
    code is not part of the repository.  It queues the job and returns a
    promise that settles with the outcome of [fn], unchanged (section
    4.2: the scheduler never masks or rewrites errors), at the instant
    the environment gives. *)
Definition Bottleneck_schedule (fn : unit → PromiseSettledResult R) (b : Bottleneck)
  : Promise R * Bottleneck :=
  ({| settledAt := settles (submitted b); outcome := fn () |}, submit b).

(** [schedule(fn)]: [return this.limiter.schedule(fn)] *)
Definition schedule (fn : unit → PromiseSettledResult R) (self : Bottleneck)
  : Promise R * Bottleneck :=
  Bottleneck_schedule fn self.

(** [items.map(item => this.schedule(() => processor(item)))] *)
Fixpoint scheduleAll (processor : T → PromiseSettledResult R) (items : list T)
    (self : Bottleneck) : list (Promise R) * Bottleneck :=
  match items with
  | [] => ([], self)
  | item :: rest =>
      let '(promise, self1) := schedule (λ _, processor item) self in
      let '(promises, self2) := scheduleAll processor rest self1 in
      (promise :: promises, self2)
  end.

(** The callback of [results.reduce], applied to [result] at [index]. *)
Definition collect (items : list T) (acc : ResultAccumulator T R)
    (result : PromiseSettledResult R) (index : nat) : ResultAccumulator T R :=
  match result with
  | fulfilled value =>
      {| successful := successful acc ++ [value]; failed := failed acc |}
  | rejected reason =>
      {| successful := successful acc;
         failed := failed acc ++
           [{| item := items !! index;
               error := if instanceofError reason then reason
                        else new_Error "Unknown error" |}] |}
  end.

(** [results.reduce(callback, acc)], from position [index] on. *)
Fixpoint reduce (items : list T) (results : list (PromiseSettledResult R))
    (index : nat) (acc : ResultAccumulator T R) : ResultAccumulator T R :=
  match results with
  | [] => acc
  | result :: rest => reduce items rest (S index) (collect items acc result index)
  end.

(** [processItems(items, processor)], with the limiter it leaves behind.
    The function returns when every promise has settled; this is what
    it returns then. *)
Definition processItems (items : list T) (processor : T → PromiseSettledResult R)
    (self : Bottleneck) : ResultAccumulator T R * Bottleneck :=
  let '(promises, self') := scheduleAll processor items self in
  let results := Promise_allSettled promises in
  (reduce items results 0 {| successful := []; failed := [] |}, self').

(** What a fulfilled outcome adds to [successful]. *)
Definition valueOf (result : PromiseSettledResult R) : option R :=
  match result with
  | fulfilled value => Some value
  | rejected _ => None
  end.

(** What the rejected processing of [item] adds to [failed]. *)
Definition failureOf (processor : T → PromiseSettledResult R) (item : T)
  : option (ProcessingError T) :=
  match processor item with
  | fulfilled _ => None
  | rejected reason =>
      Some {| item := Some item;
              error := if instanceofError reason then reason
                       else new_Error "Unknown error" |}
  end.

(** Insertion of a promise into a list ordered by settling instant,
    after those that settled no later. *)
Fixpoint insertByCompletion (p : Promise R) (sorted : list (Promise R))
  : list (Promise R) :=
  match sorted with
  | [] => [p]
  | q :: rest =>
      if bool_decide (settledAt q ≤ settledAt p)%nat
      then q :: insertByCompletion p rest
      else p :: q :: rest
  end.

(** The promises in the order in which they settled. *)
Definition completionOrder (promises : list (Promise R)) : list (Promise R) :=
  foldl (λ sorted p, insertByCompletion p sorted) [] promises.

(** The specification's reading of [successful]: the fulfilled values in
    completion order. *)
Definition successfulByCompletion (processor : T → PromiseSettledResult R)
    (items : list T) (self : Bottleneck) : list R :=
  omap (λ p, valueOf (outcome p))
       (completionOrder (fst (scheduleAll processor items self))).

End ProcessItems.

(** The configuration of the class's documentation. *)
Definition docConfig : AsyncRateLimiterConfig :=
  {| maxConcurrent := 5; intervalCap := 20; interval := 10000; minTime := Some 200 |}.

Definition docLimiter : Bottleneck :=
  new_Bottleneck
    {| bn_maxConcurrent := 5; reservoir := 20; reservoirRefreshAmount := 20;
       reservoirRefreshInterval := 10000; bn_minTime := 200 |}.

(** A processor that throws for item 2 only and multiplies by ten
    otherwise, and an environment in which a job submitted later settles
    earlier. *)
Definition docProcessor (x : Z) : PromiseSettledResult Z :=
  if bool_decide (x = 2) then rejected (ErrorObject "Error" "Article 2 has no content" false)
  else fulfilled (x * 10).

Definition laterFirst (job : nat) : nat := (10 - job)%nat.

(** The documentation's limiter after three jobs were submitted at once
    and the first of them was dispatched. *)
Definition docDispatched : Bottleneck :=
  {| options := options docLimiter; submitted := 3;
     queue := [1; 2]%nat; inFlight := [0%nat];
     tokens := 19; lastDispatch := Some 0; time := 0 |}.

End AsyncRateLimiter.

(* ===================================================================== *)
(** ** promptRunnerInterface.ts: class PromptUtils *)
(* ===================================================================== *)

Module PromptUtils.
Import Js.

(** [error instanceof Error ? error.name : 'Unknown error'] *)
Definition errorName (error : JsValue) : string :=
  match error with
  | ErrorObject name _ _ => name
  | OtherValue _ _ => "Unknown error"
  end.

(** [error instanceof Error && error.name === "ZodError"] *)
Definition isZodError (error : JsValue) : bool :=
  match error with
  | ErrorObject name _ _ => String.eqb name "ZodError"
  | OtherValue _ _ => false
  end.

(** [NoObjectGeneratedError.isInstance(error)] *)
Definition isNoObjectGeneratedError (error : JsValue) : bool :=
  match error with
  | ErrorObject _ _ marked => marked
  | OtherValue _ marked => marked
  end.

(** [errorName.includes('TimeoutError')] *)
Definition isTimeoutError (error : JsValue) : bool :=
  includes (errorName error) "TimeoutError".

(** [isParsingError(error)]; the debug log is left out. *)
Definition isParsingError (error : JsValue) : bool :=
  isZodError error || isNoObjectGeneratedError error || isTimeoutError error.

(** How a call of [retryParsingOperation] ends. *)
Inductive Completion (T : Type) : Type :=
| Returns (value : T)
| Rethrows (error : JsValue).
Global Arguments Returns {T} value.
Global Arguments Rethrows {T} error.

(** What a call of [retryParsingOperation] did: how it ended, how many
    times it invoked the operation, and the delays it slept for. *)
Record Retried (T : Type) : Type := {
  completion : Completion T;
  invocations : nat;
  delays : list Z
}.
Global Arguments completion {T} _.
Global Arguments invocations {T} _.
Global Arguments delays {T} _.

(** The [for] loop of [retryParsingOperation].  [operation n] is the
    outcome of the [n]-th invocation of the operation; [attempt] is the
    loop variable and [remaining] the number of values it still has to
    take, [maxRetries - attempt + 1] when that is positive. *)
Fixpoint retryLoop {T : Type} (operation : nat → PromiseSettledResult T)
    (retryOnlyParsingErrors : bool) (maxRetries delayMs : Z)
    (remaining attempt : nat) (slept : list Z) : Retried T :=
  match remaining with
  | O =>
      {| completion := Rethrows (new_Error "Retry operation failed");
         invocations := attempt - 1; delays := slept |}
  | S remaining' =>
      match operation attempt with
      | fulfilled value =>
          {| completion := Returns value; invocations := attempt; delays := slept |}
      | rejected error =>
          let shouldRetry := negb retryOnlyParsingErrors || isParsingError error in
          if negb shouldRetry || bool_decide (Z.of_nat attempt = maxRetries)
          then {| completion := Rethrows error; invocations := attempt; delays := slept |}
          else retryLoop operation retryOnlyParsingErrors maxRetries delayMs
                 remaining' (S attempt) (slept ++ [delayMs])
      end
  end.

(** [retryParsingOperation(operation, retryOnlyParsingErrors, maxRetries, delayMs)] *)
Definition retryParsingOperation {T : Type} (operation : nat → PromiseSettledResult T)
    (retryOnlyParsingErrors : bool) (maxRetries delayMs : Z) : Retried T :=
  retryLoop operation retryOnlyParsingErrors maxRetries delayMs
    (Z.to_nat maxRetries) 1 [].

(** An operation that fails schema validation on every attempt, and one
    that fails with a [TypeError] on every attempt. *)
Definition alwaysZodError (attempt : nat) : PromiseSettledResult Z :=
  rejected (ErrorObject "ZodError" "Invalid input" false).

Definition alwaysTypeError (attempt : nat) : PromiseSettledResult Z :=
  rejected (ErrorObject "TypeError" "x is not a function" false).

(** An operation that fails validation once and then returns 7. *)
Definition secondTimeLucky (attempt : nat) : PromiseSettledResult Z :=
  if bool_decide (attempt = 2%nat) then fulfilled 7
  else rejected (ErrorObject "ZodError" "Invalid input" false).

End PromptUtils.

(* ===================================================================== *)
(** ** openRouterPromptRunner.ts, models.ts *)
(* ===================================================================== *)

Module OpenRouterPromptRunner.
Import Js PromptUtils.

(** [interface TaskExecutionConfig]: every field is optional. *)
Record TaskExecutionConfig : Type := {
  maxTokens : option Z;
  timeoutMs : option Z;
  retryParsingErrors : option bool
}.

(** [TestModelPromptTask.getTaskConfig]: [{ retryParsingErrors: false }] *)
Definition TestModelPromptTask_getTaskConfig : option TaskExecutionConfig :=
  Some {| maxTokens := None; timeoutMs := None; retryParsingErrors := Some false |}.

(** [runTask(schema, messages, config)].  [generate n] is the outcome of
    the [n]-th run of the callback handed to [retryParsingOperation]
    (the call of [generateObject] and the read of [result.object]); the
    call leaves [maxRetries] and [delayMs] at their defaults, 3 and 1000.
    [config?.retryParsingErrors != undefined ? config?.retryParsingErrors : true] *)
Definition runTask {T : Type} (generate : nat → PromiseSettledResult T)
    (config : option TaskExecutionConfig) : Retried T :=
  let retryParsingErrors :=
    match config ≫= retryParsingErrors with
    | Some flag => flag
    | None => true
    end in
  retryParsingOperation generate retryParsingErrors 3 1000.

(** The parts of a generation result ([LanguageModelV2Content] of the AI
    SDK) that are neither text nor tool calls. *)
Inductive OtherKind : Type := reasoning | file | source | tool_result.

(** The [input] of a tool call as [fixToolCalls] reads it: missing, a
    string, or an object, given by the text [JSON.stringify] prints for
    it. *)
Inductive ToolInput : Type :=
| InputUndefined
| InputString (s : string)
| InputObject (json : string).

(** One element of [result.content], by its [type]. *)
Inductive ContentPart : Type :=
| TextContent (text : string)
| ToolCallContent (toolName : string) (input : ToolInput)
| OtherContent (kind : OtherKind).

(** What [fixToolCalls] reads of the result of [model.doGenerate]. *)
Record GenerateResult : Type := {
  content : list ContentPart;
  finishReason : string
}.

(** [c.type === 'text'] *)
Definition isText (c : ContentPart) : bool :=
  match c with
  | TextContent _ => true
  | _ => false
  end.

(** [c.type === 'tool-call'] *)
Definition isToolCall (c : ContentPart) : bool :=
  match c with
  | ToolCallContent _ _ => true
  | _ => false
  end.

(** Truthiness of [toolCall.input]: an empty string is falsy, an object
    is truthy. *)
Definition truthy (input : ToolInput) : bool :=
  match input with
  | InputUndefined => false
  | InputString s => negb (String.eqb s "")
  | InputObject _ => true
  end.

(** [typeof input === 'string' ? input : JSON.stringify(input)], for an
    input that is there. *)
Definition inputText (input : ToolInput) : string :=
  match input with
  | InputUndefined => ""
  | InputString s => s
  | InputObject json => json
  end.

(** The [doGenerate] of the model [fixToolCalls(model)] returns, applied
    to the result [model.doGenerate(options)] resolved with. *)
Definition fixToolCalls (result : GenerateResult) : GenerateResult :=
  let hasText := existsb isText (content result) in
  let hasToolCalls := existsb isToolCall (content result) in
  if negb hasText && hasToolCalls && String.eqb (finishReason result) "tool-calls" then
    match find isToolCall (content result) with
    | Some (ToolCallContent _ input) =>
        if truthy input
        then {| content := content result ++ [TextContent (inputText input)];
                finishReason := finishReason result |}
        else result
    | _ => result
    end
  else result.

(** [enum ModelType], by the names of its members. *)
Inductive ModelType : Type :=
| DEEPSEEK_V3 | GEMINI_FLASH | LLAMA_4_MAVERICK
| DEEPSEEK_R1_QWEN_MEDIUM | GPT_5_NANO_MEDIUM | GPT_5_MINI_MEDIUM
| MISTRAL_SMALL_MEDIUM | GPT_OSS_20B_HIGH | GPT_OSS_120B_HIGH.

Global Instance ModelType_eq_dec : EqDecision ModelType.
Proof. solve_decision. Defined.

(** The string value of each member; these are the keys of the tables. *)
Definition modelTypeValue (m : ModelType) : string :=
  match m with
  | DEEPSEEK_V3 => "DEEPSEEK_V3_LOW"
  | GEMINI_FLASH => "GEMINI_FLASH_LOW"
  | LLAMA_4_MAVERICK => "LLAMA_4_MAVERICK_LOW"
  | DEEPSEEK_R1_QWEN_MEDIUM => "DEEPSEEK_R1_QWEN_MEDIUM"
  | GPT_5_NANO_MEDIUM => "GPT_5_NANO_MEDIUM"
  | GPT_5_MINI_MEDIUM => "GPT_5_MINI_MEDIUM"
  | MISTRAL_SMALL_MEDIUM => "MISTRAL_SMALL_MEDIUM"
  | GPT_OSS_20B_HIGH => "GPT_OSS_20B_HIGH"
  | GPT_OSS_120B_HIGH => "GPT_OSS_120B_HIGH"
  end.

(** [Object.values(ModelType)]: the values in declaration order. *)
Definition ModelType_values : list ModelType :=
  [DEEPSEEK_V3; GEMINI_FLASH; LLAMA_4_MAVERICK; DEEPSEEK_R1_QWEN_MEDIUM;
   GPT_5_NANO_MEDIUM; GPT_5_MINI_MEDIUM; MISTRAL_SMALL_MEDIUM;
   GPT_OSS_20B_HIGH; GPT_OSS_120B_HIGH].

Inductive ReasoningEffort : Type := low | medium | high.

(** [interface ProviderModelConfig], without its [notes]. *)
Record ProviderModelConfig : Type := {
  modelName : string;
  reasoningEnabled : option bool;
  reasoningEffort : option ReasoningEffort
}.

(** [NO_REASONING_MODELS] *)
Definition NO_REASONING_MODELS : gmap string ProviderModelConfig :=
  <[modelTypeValue DEEPSEEK_V3 :=
      {| modelName := "deepseek/deepseek-chat-v3.1";
         reasoningEnabled := None; reasoningEffort := None |}]>
  (<[modelTypeValue GEMINI_FLASH :=
      {| modelName := "google/gemini-2.0-flash-lite-001";
         reasoningEnabled := None; reasoningEffort := None |}]>
  (<[modelTypeValue LLAMA_4_MAVERICK :=
      {| modelName := "meta-llama/llama-4-maverick";
         reasoningEnabled := None; reasoningEffort := None |}]> ∅)).

(** [REASONING_MODELS] *)
Definition REASONING_MODELS : gmap string ProviderModelConfig :=
  <[modelTypeValue DEEPSEEK_R1_QWEN_MEDIUM :=
      {| modelName := "deepseek/deepseek-r1-0528-qwen3-8b";
         reasoningEnabled := Some true; reasoningEffort := Some medium |}]>
  (<[modelTypeValue GPT_5_NANO_MEDIUM :=
      {| modelName := "openai/gpt-5-nano";
         reasoningEnabled := Some true; reasoningEffort := Some medium |}]>
  (<[modelTypeValue GPT_5_MINI_MEDIUM :=
      {| modelName := "openai/gpt-5-mini";
         reasoningEnabled := Some true; reasoningEffort := Some medium |}]>
  (<[modelTypeValue MISTRAL_SMALL_MEDIUM :=
      {| modelName := "mistralai/mistral-small-3.2-24b-instruct";
         reasoningEnabled := Some true; reasoningEffort := Some medium |}]>
  (<[modelTypeValue GPT_OSS_20B_HIGH :=
      {| modelName := "openai/gpt-oss-20b";
         reasoningEnabled := Some true; reasoningEffort := Some high |}]>
  (<[modelTypeValue GPT_OSS_120B_HIGH :=
      {| modelName := "openai/gpt-oss-120b";
         reasoningEnabled := Some true; reasoningEffort := Some high |}]> ∅))))).

(** [{ ...NO_REASONING_MODELS, ...REASONING_MODELS }]: a key of the
    second object overrides the same key of the first. *)
Definition MODEL_CONFIGS : gmap string ProviderModelConfig :=
  REASONING_MODELS ∪ NO_REASONING_MODELS.

(** [DEFAULT_MODEL_TYPE] *)
Definition DEFAULT_MODEL_TYPE : ModelType := GEMINI_FLASH.

(** The model configuration [new OpenRouterPromptRunner] stores (the
    provider and the temperature, a floating-point number, are left
    out). *)
Record OpenRouterPromptRunner : Type := {
  modelConfig : ProviderModelConfig
}.

(** [constructor(modelType?, temperature?)], given the API key of the
    configuration ([config.openRouterApiKey], the empty string when the
    environment has none).  Returns the message of the error it throws,
    or the runner. *)
Definition new_OpenRouterPromptRunner (openRouterApiKey : string)
    (modelType : option ModelType) : string + OpenRouterPromptRunner :=
  if String.eqb openRouterApiKey "" then
    inl "OpenRouter API key is not configured"
  else
    let selectedModelType := default DEFAULT_MODEL_TYPE modelType in
    match MODEL_CONFIGS !! modelTypeValue selectedModelType with
    | None => inl ("Invalid model type: " +:+ modelTypeValue selectedModelType)
    | Some cfg => inr {| modelConfig := cfg |}
    end.

(** [providerOptions.reasoning], as [runTask] and [runAgent] fill it. *)
Record ReasoningOptions : Type := {
  enabled : bool;
  exclude : bool;
  effort : ReasoningEffort
}.

(** The [providerOptions] both [runTask] and [runAgent] build: reasoning
    is set when [reasoningEnabled] is not [undefined], with
    [effort: reasoningEffort || 'low']. *)
Definition providerOptions (self : OpenRouterPromptRunner) : option ReasoningOptions :=
  match reasoningEnabled (modelConfig self) with
  | None => None
  | Some flag =>
      Some {| enabled := flag; exclude := true;
              effort := default low (reasoningEffort (modelConfig self)) |}
  end.

(** An operation rejected with an [AbortError] at every attempt: no
    parsing error. *)
Definition alwaysAborted (attempt : nat) : PromiseSettledResult Z :=
  rejected (ErrorObject "AbortError" "The operation was aborted" false).

(** A result that ends with a tool call and no text, as the models the
    fix was written for return it. *)
Definition toolCallOnly : GenerateResult :=
  {| content := [OtherContent reasoning;
                 ToolCallContent "json" (InputString "{'title': 'Rye'}")];
     finishReason := "tool-calls" |}.

End OpenRouterPromptRunner.

(* ===================================================================== *)
(** ** scripts/testModels.ts *)
(* ===================================================================== *)

Module TestModels.
Import Js AsyncRateLimiter OpenRouterPromptRunner.

(** [interface ScriptParams]; [attempts] is an integer. *)
Record ScriptParams : Type := {
  all : bool;
  model : option ModelType;
  attempts : Z;
  save : bool
}.

(** [interface TestRequest] *)
Record TestRequest : Type := {
  id : Z;
  requestModel : ModelType
}.

(** One element of [response.classifications]; a field that is missing
    at run time is [None]. *)
Record Classification : Type := {
  activity : option string;
  category : option string;
  reasoning : option string
}.

(** [CognitiveEffortOutput], as [validateModelResponse] reads it. *)
Record CognitiveEffortOutput : Type := {
  classifications : option (list Classification)
}.

Inductive Status : Type := success | partial | failed.

Global Instance Status_eq_dec : EqDecision Status.
Proof. solve_decision. Defined.

(** [interface TestResult] *)
Record TestResult : Type := {
  requestId : Z;
  modelType : ModelType;
  response : option CognitiveEffortOutput;
  status : Status;
  error : option string;
  executionTime : Z;
  tokenCount : option Z
}.

(** The integer columns of [interface ModelStats]; the rates and averages
    are floating-point numbers and are left out. *)
Record ModelStats : Type := {
  statsModel : ModelType;
  totalCalls : nat;
  successes : nat;
  partials : nat;
  failures : nat
}.

(** [getSelectedModels(params)] *)
Definition getSelectedModels (params : ScriptParams) : list ModelType :=
  if all params then ModelType_values
  else match model params with
       | Some m => [m]
       | None => [GPT_OSS_20B_HIGH]
       end.

(** [!field]: the field is missing or the empty string. *)
Definition missing (field : option string) : bool :=
  match field with
  | None => true
  | Some s => String.eqb s ""
  end.

(** [field.length < 3], read only of a field that is there; the length
    is that of a string of one-unit characters. *)
Definition tooShort (field : option string) : bool :=
  match field with
  | None => false
  | Some s => (String.length s <? 3)%nat
  end.

(** The condition of the [if] in the loop of [validateModelResponse]. *)
Definition incomplete (c : Classification) : bool :=
  missing (activity c) || missing (category c) || missing (reasoning c) ||
  tooShort (activity c) || tooShort (category c) || tooShort (reasoning c).

(** The [for] loop of [validateModelResponse]: it returns ['partial'] at
    the first incomplete classification. *)
Fixpoint validateClassifications (cs : list Classification) : Status :=
  match cs with
  | [] => success
  | c :: rest => if incomplete c then partial else validateClassifications rest
  end.

(** [validateModelResponse(response)] *)
Definition validateModelResponse (response : CognitiveEffortOutput) : Status :=
  match classifications response with
  | None => partial
  | Some cs =>
      if negb (length cs =? 5)%nat then partial else validateClassifications cs
  end.

(** [error instanceof Error ? error.message : 'Unknown error'] *)
Definition errorMessage (error : JsValue) : string :=
  match error with
  | ErrorObject _ message _ => message
  | OtherValue _ _ => "Unknown error"
  end.

(** [testModelWithPrompt(modelType, requestId)].  [tried] is how the
    [try] block went up to [await promptTask.execute()]: the response,
    or what was thrown; [startTime] and [endTime] are the two readings
    of [Date.now()]. *)
Definition testModelWithPrompt (tried : PromiseSettledResult CognitiveEffortOutput)
    (startTime endTime : Z) (m : ModelType) (request : Z) : TestResult :=
  match tried with
  | fulfilled r =>
      {| requestId := request; modelType := m; response := Some r;
         status := validateModelResponse r; error := None;
         executionTime := endTime - startTime; tokenCount := Some 0 |}
  | rejected e =>
      {| requestId := request; modelType := m; response := None;
         status := failed; error := Some (errorMessage e);
         executionTime := endTime - startTime; tokenCount := None |}
  end.

(** The inner [for] loop of [main]: [attempts] requests for one model,
    each numbered [allRequests.length + 1]. *)
Definition pushAttempts (n : nat) (m : ModelType) (allRequests : list TestRequest)
  : list TestRequest :=
  Nat.iter n (λ requests,
                requests ++ [{| id := Z.of_nat (length requests) + 1;
                                requestModel := m |}]) allRequests.

(** [selectedModels.forEach(modelType => { for (...) allRequests.push(...) })] *)
Definition createRequests (selectedModels : list ModelType) (n : Z) : list TestRequest :=
  foldl (λ requests m, pushAttempts (Z.to_nat n) m requests) [] selectedModels.

(** The callback of [failedResults.map]: reading [f.item.id] of a missing
    item throws ([None]); [f.error.message] is [undefined] for a value
    that is no [Error]. *)
Definition convertFailed (f : ProcessingError TestRequest) : option TestResult :=
  match item f with
  | None => None
  | Some request =>
      Some {| requestId := id request; modelType := requestModel request;
              response := None; status := failed;
              error := match AsyncRateLimiter.error f with
                       | ErrorObject _ message _ => Some message
                       | OtherValue _ _ => None
                       end;
              executionTime := 0; tokenCount := Some 0 |}
  end.

(** The callback of [selectedModels.map] that computes the statistics
    of one model. *)
Definition statsFor (allResults : list TestResult) (m : ModelType) : ModelStats :=
  let modelResults := filter (λ r, modelType r = m) allResults in
  {| statsModel := m;
     totalCalls := length modelResults;
     successes := length (filter (λ r, status r = success) modelResults);
     partials := length (filter (λ r, status r = partial) modelResults);
     failures := length (filter (λ r, status r = failed) modelResults) |}.

(** [rateLimiterConfig] of [main] *)
Definition rateLimiterConfig : AsyncRateLimiterConfig :=
  {| maxConcurrent := 5; intervalCap := 20; interval := 10000; minTime := None |}.

(** The environment of a run: for each request, how the [try] block of
    [testModelWithPrompt] went and the two clock readings around it. *)
Record Environment : Type := {
  tried : TestRequest → PromiseSettledResult CognitiveEffortOutput;
  started : TestRequest → Z;
  finished : TestRequest → Z
}.

(** The processor [main] hands to [processItems]. *)
Definition processor (env : Environment) (request : TestRequest)
  : PromiseSettledResult TestResult :=
  fulfilled (testModelWithPrompt (tried env request) (started env request)
               (finished env request) (requestModel request) (id request)).

(** The results and statistics [main] computes from the processed
    requests, for any processor; [None] when converting a failure
    throws. *)
Definition summarize (selectedModels : list ModelType)
    (processed : ResultAccumulator TestRequest TestResult)
  : option (list TestResult * list ModelStats) :=
  failedResultsConverted ← mapM convertFailed (AsyncRateLimiter.failed processed);
  let allResults := AsyncRateLimiter.successful processed ++ failedResultsConverted in
  Some (allResults, statsFor allResults <$> selectedModels).

(** [main()], from the parsed arguments to the results and statistics it
    reports, once every request has settled; [None] when an exception
    reaches its [catch].  Printing and the optional saving of the
    results, which change neither, are left out.  [settles] gives the
    instants at which the limiter lets the jobs settle. *)
Definition main (settles : nat → nat) (env : Environment) (params : ScriptParams)
  : option (list TestResult * list ModelStats) :=
  let selectedModels := getSelectedModels params in
  match constructor rateLimiterConfig with
  | Throws _ => None
  | Built rateLimiter =>
      let allRequests := createRequests selectedModels (attempts params) in
      summarize selectedModels
        (fst (processItems settles allRequests (processor env) rateLimiter))
  end.

(** A response with five complete classifications. *)
Definition fiveClassifications : CognitiveEffortOutput :=
  {| classifications := Some (replicate 5
       {| activity := Some "playing chess"; category := Some "High";
          reasoning := Some "planning ahead" |}) |}.

(** An environment in which the first attempt of every model succeeds
    and every later attempt fails. *)
Definition firstAttemptOnly : Environment :=
  {| tried := λ request,
       if bool_decide (id request = 1) then fulfilled fiveClassifications
       else rejected (ErrorObject "Error" "rate limited" false);
     started := λ request, 1000 * id request;
     finished := λ request, 1000 * id request + 250 |}.

End TestModels.

(* ===================================================================== *)
(** ** services/scriptSaveData: scriptSaveService.ts, types.ts *)
(* ===================================================================== *)

Module ScriptSaveService.

(** [enum SaveFormat] *)
Inductive SaveFormat : Type := TEXT | MARKDOWN | JSON | CSV.

(** [timestampFormat?: boolean | string] *)
Inductive TimestampFormat : Type :=
| TimestampFlag (flag : bool)
| TimestampPattern (pattern : string).

(** [interface SaveOptions] *)
Record SaveOptions : Type := {
  format : SaveFormat;
  filePrefix : option string;
  fileName : option string;
  subfolder : option string;
  timestampFormat : option TimestampFormat;
  encoding : option string
}.

(** [getFileExtension(format)] *)
Definition getFileExtension (fmt : SaveFormat) : string :=
  match fmt with
  | TEXT => ".txt"
  | MARKDOWN => ".md"
  | JSON => ".json"
  | CSV => ".csv"
  end.

(** [s.endsWith(suffix)], on the characters of the strings. *)
Definition endsWith (s suffix : string) : bool :=
  bool_decide (String.list_ascii_of_string suffix
               `suffix_of` String.list_ascii_of_string s).

(** [s.replace(/:/g, '-')] *)
Fixpoint replaceColons (s : string) : string :=
  match s with
  | EmptyString => EmptyString
  | String c s' =>
      String (if Ascii.eqb c ":" then "-"%char else c) (replaceColons s')
  end.

(** Truthiness of an optional string: present and not empty. *)
Definition given (s : option string) : option string :=
  match s with
  | Some text => if String.eqb text "" then None else Some text
  | None => None
  end.

(** [generateFilename(options)]; [iso] is what
    [new Date().toISOString()] returns when it is called. *)
Definition generateFilename (iso : string) (options : SaveOptions) : string :=
  match given (fileName options) with
  | Some name =>
      let ext := getFileExtension (format options) in
      if endsWith name ext then name else name +:+ ext
  | None =>
      let timestamp :=
        match timestampFormat options with
        | Some (TimestampFlag false) => ""
        | Some (TimestampPattern _) => "-" +:+ replaceColons iso
        | _ => "-" +:+ replaceColons iso
        end in
      let prefix := default "data" (given (filePrefix options)) in
      let ext := getFileExtension (format options) in
      prefix +:+ timestamp +:+ ext
  end.

(** The string holds no colon. *)
Definition colonFree (s : string) : Prop :=
  ":"%char ∉ String.list_ascii_of_string s.

(** Options as [saveJson(data, 'testModels-results')] passes them. *)
Definition testModelsOptions : SaveOptions :=
  {| format := JSON; filePrefix := Some "testModels-results"; fileName := None;
     subfolder := None; timestampFormat := None; encoding := None |}.

(** Options with a custom file name that lacks the extension. *)
Definition reportOptions : SaveOptions :=
  {| format := MARKDOWN; filePrefix := None; fileName := Some "report";
     subfolder := None; timestampFormat := None; encoding := None |}.

End ScriptSaveService.

(* ===================================================================== *)
(** ** llmServices/agents/breadRecipeAgentService.ts *)
(* ===================================================================== *)

Module BreadRecipeAgentService.

(** ['Easy' | 'Medium' | 'Hard'] *)
Inductive Difficulty : Type := Easy | Medium | Hard.

(** [interface AnswerToolInput] *)
Record AnswerToolInput : Type := {
  title : string;
  breadType : string;
  difficulty : Difficulty;
  totalTime : string;
  servings : Z;
  ingredients : list string;
  instructions : list string;
  tips : list string;
  nutritionNotes : option string
}.

Section Recipe.
(** The objects a tool call can carry as its input; for the [answer]
    tool the schema asks for an [AnswerToolInput]. *)
Context {Recipe : Type}.

(** The value of [call.input], which the helpers take as [any]: a
    missing input, or one of the values the JSON of a tool call can
    hold.  A number is given by its integer value. *)
Inductive InputValue : Type :=
| UndefinedInput
| NullInput
| BooleanInput (b : bool)
| NumberInput (n : Z)
| StringInput (s : string)
| ObjectInput (object : Recipe).

(** A tool call of the result: its name and its input. *)
Record ToolCall : Type := {
  toolName : string;
  input : InputValue
}.

(** [interface BreadRecipeAgentOutput]; [recipe] is the input of the
    [answer] call as it came. *)
Record BreadRecipeAgentOutput : Type := {
  recipe : option InputValue;
  success : bool;
  error : option string
}.

(** [value !== undefined] *)
Definition defined (value : InputValue) : bool :=
  match value with
  | UndefinedInput => false
  | _ => true
  end.

(** Truthiness of a value, as [if (recipeData)] tests it: [undefined],
    [null], [false], [0] and the empty string are falsy, every object
    is truthy. *)
Definition truthy (value : InputValue) : bool :=
  match value with
  | UndefinedInput => false
  | NullInput => false
  | BooleanInput b => b
  | NumberInput n => negb (n =? 0)
  | StringInput s => negb (String.eqb s "")
  | ObjectInput _ => true
  end.

(** [isAnswerToolCall(call)] *)
Definition isAnswerToolCall (call : ToolCall) : bool :=
  String.eqb (toolName call) "answer" && defined (input call).

(** [extractAnswerData(toolCall)] *)
Definition extractAnswerData (toolCall : ToolCall) : InputValue :=
  if isAnswerToolCall toolCall then input toolCall else NullInput.

(** [processAgentResult(result)], from [result.toolCalls]; [None] when
    the result has no [toolCalls]. *)
Definition processAgentResult (toolCalls : option (list ToolCall))
  : BreadRecipeAgentOutput :=
  let notCalled :=
    {| recipe := None; success := false;
       error := Some "Agent completed but did not call the answer tool" |} in
  match toolCalls ≫= find (λ call, String.eqb (toolName call) "answer") with
  | Some answerToolCall =>
      let recipeData := extractAnswerData answerToolCall in
      if truthy recipeData then
        {| recipe := Some recipeData; success := true; error := None |}
      else notCalled
  | None => notCalled
  end.

End Recipe.
Global Arguments InputValue : clear implicits.
Global Arguments ToolCall : clear implicits.
Global Arguments BreadRecipeAgentOutput : clear implicits.

(** A recipe as the [answer] tool delivers it. *)
Definition ryeBread : AnswerToolInput :=
  {| title := "Rye Bread"; breadType := "rye"; difficulty := Medium;
     totalTime := "4 hours"; servings := 8;
     ingredients := ["500 g rye flour"; "10 g salt"; "350 ml water"];
     instructions := ["Mix"; "Proof"; "Bake"];
     tips := ["Let it cool before slicing"];
     nutritionNotes := None |}.

End BreadRecipeAgentService.

(* ===================================================================== *)
(** ** Properties of SyncRateLimiter *)
(* ===================================================================== *)

Section SyncRateLimiterProperties.
Import SyncRateLimiter.

Variable config : syncRateLimiterConfig.

Lemma prune_length now times :
  (length (prune config now times) ≤ length times)%nat.
Proof. apply length_filter. Qed.

Lemma prune_elem now times t :
  t ∈ prune config now times ↔ now - t < rateLimitWindow config ∧ t ∈ times.
Proof. unfold prune. by rewrite list_elem_of_filter. Qed.

Lemma overLimit_spec times :
  overLimit config times = true ↔
  maxRequestsPerWindow config ≤ Z.of_nat (length times).
Proof. unfold overLimit. apply bool_decide_eq_true. Qed.

Lemma overLimit_false times :
  overLimit config times = false ↔
  Z.of_nat (length times) < maxRequestsPerWindow config.
Proof. unfold overLimit. rewrite bool_decide_eq_false. lia. Qed.

(** With a positive limit the over-limit branch sees a non-empty log. *)
Lemma overLimit_cons times :
  0 < maxRequestsPerWindow config →
  overLimit config times = true →
  ∃ oldest rest, times = oldest :: rest.
Proof.
  intros Hk Hover. apply overLimit_spec in Hover.
  destruct times as [|oldest rest]; [simpl in Hover; lia | eauto].
Qed.

(** In the over-limit branch [requestTimes[0]] is an entry of the log
    that pruning kept, and [waitTime] is computed from it. *)
Lemma overLimit_oldest (self : SyncRateLimiter) (now : Z) :
  0 < maxRequestsPerWindow config →
  overLimit config (prune config now (requestTimes self)) = true →
  ∃ oldest,
    oldestRequest (prune config now (requestTimes self)) = Some oldest ∧
    oldest ∈ requestTimes self ∧
    now - oldest < rateLimitWindow config ∧
    waitTime config now (oldestRequest (prune config now (requestTimes self)))
    = Some (rateLimitWindow config - (now - oldest) + rateLimitResetBuffer config).
Proof.
  intros Hk Hover.
  destruct (overLimit_cons _ Hk Hover) as (oldest & rest & Hpruned).
  exists oldest.
  assert (Hin : oldest ∈ prune config now (requestTimes self))
    by (rewrite Hpruned; apply list_elem_of_here).
  apply prune_elem in Hin as [Hwin Hin].
  rewrite Hpruned. simpl. auto.
Qed.

(** C10.  Under the data-model precondition [maxRequestsPerWindow > 0],
    whenever the over-limit branch of [waitForRateLimit] is entered the
    pruned log is non-empty, so [requestTimes[0]] reads an element of the
    log (one still inside the window) and [waitTime] is computed from it,
    never from [undefined]; hence no delay of a call is [NaN]. *)
Theorem oldestRequest_defined (self : SyncRateLimiter) (now resumed : Z) :
  0 < maxRequestsPerWindow config →
  (overLimit config (prune config now (requestTimes self)) = true →
   ∃ oldest,
     oldestRequest (prune config now (requestTimes self)) = Some oldest ∧
     oldest ∈ requestTimes self ∧
     now - oldest < rateLimitWindow config ∧
     waitTime config now (oldestRequest (prune config now (requestTimes self)))
     = Some (rateLimitWindow config - (now - oldest) + rateLimitResetBuffer config)) ∧
  Forall is_Some (suspensions (waitForRateLimit config self now resumed)).
Proof.
  intros Hk. pose proof (overLimit_oldest self now Hk) as Hbranch.
  split; [exact Hbranch|].
  unfold waitForRateLimit.
  destruct (overLimit config (prune config now (requestTimes self))) eqn:Hover.
  - destruct (Hbranch eq_refl) as (oldest & _ & _ & _ & Hwait).
    rewrite Hwait. case_bool_decide; repeat constructor; eauto.
  - case_bool_decide; repeat constructor; eauto.
Qed.

(** *** The waits of one call *)

(** The log after a call: what pruning kept, or nothing, then [resumed]. *)
Lemma waitForRateLimit_log self now resumed :
  requestTimes (limiter (waitForRateLimit config self now resumed)) =
  (if overLimit config (prune config now (requestTimes self))
   then [] else prune config now (requestTimes self)) ++ [resumed].
Proof.
  unfold waitForRateLimit.
  by destruct (overLimit config (prune config now (requestTimes self))).
Qed.

Lemma waitForRateLimit_last self now resumed :
  lastRequestTime (limiter (waitForRateLimit config self now resumed)) = resumed.
Proof.
  unfold waitForRateLimit.
  by destruct (overLimit config (prune config now (requestTimes self))).
Qed.

(** The delays of a call, branch by branch. *)
Lemma waitForRateLimit_suspensions self now resumed :
  suspensions (waitForRateLimit config self now resumed) =
  (if overLimit config (prune config now (requestTimes self))
   then [waitTime config now (oldestRequest (prune config now (requestTimes self)))]
   else []) ++
  (if bool_decide (now - lastRequestTime self < minRequestInterval config)
   then [Some (minRequestInterval config - (now - lastRequestTime self))]
   else []).
Proof.
  unfold waitForRateLimit.
  by destruct (overLimit config (prune config now (requestTimes self))).
Qed.

Lemma logInPast_step self now resumed :
  logInPast self → lastRequestTime self ≤ now → now ≤ resumed →
  logInPast (limiter (waitForRateLimit config self now resumed)).
Proof.
  unfold logInPast. intros Hpast Hnow Hres.
  rewrite waitForRateLimit_log, waitForRateLimit_last.
  apply Forall_app. split; [|repeat constructor; lia].
  destruct (overLimit config _); [constructor|].
  apply Forall_forall. intros t [_ Hin]%prune_elem.
  rewrite Forall_forall in Hpast. specialize (Hpast t Hin). lia.
Qed.

Lemma waitForRateLimit_total self now resumed :
  nonNegative config → logInPast self → lastRequestTime self ≤ now →
  suspendedAtMost (rateLimitWindow config + rateLimitResetBuffer config
                   + minRequestInterval config)
                  (waitForRateLimit config self now resumed).
Proof.
  intros (Hmin & Hwin & Hbuf & Hk) Hpast Hnow.
  unfold suspendedAtMost. rewrite waitForRateLimit_suspensions.
  pose proof (overLimit_oldest self now Hk) as Hbranch.
  destruct (overLimit config (prune config now (requestTimes self))) eqn:Hover.
  - destruct (Hbranch eq_refl) as (oldest & _ & Hin & Hinside & ->).
    unfold logInPast in Hpast. rewrite Forall_forall in Hpast.
    specialize (Hpast oldest Hin).
    case_bool_decide; simpl; eexists; (split; [reflexivity|lia]).
  - case_bool_decide; simpl; eexists; (split; [reflexivity|lia]).
Qed.

Lemma calls_length self clock :
  length (calls config self clock) = length clock.
Proof.
  revert self. induction clock as [|[now resumed] clock IH]; intros self; simpl;
    [done | by rewrite IH].
Qed.

Lemma calls_total self clock :
  nonNegative config → logInPast self → monotonic (lastRequestTime self) clock →
  Forall (suspendedAtMost (rateLimitWindow config + rateLimitResetBuffer config
                           + minRequestInterval config))
         (calls config self clock).
Proof.
  intros Hcfg. revert self.
  induction clock as [|[now resumed] clock IH]; intros self Hpast Hmono; simpl.
  - constructor.
  - destruct Hmono as (Hnow & Hres & Hmono). constructor.
    + by apply waitForRateLimit_total.
    + apply IH.
      * by apply logInPast_step.
      * by rewrite waitForRateLimit_last.
Qed.

(** C3, as the code has it.  Every call of [waitForRateLimit] returns (no
    path of it throws), and when the configuration respects the data
    model (non-negative durations, a positive limit) and the clock does
    not run backwards, the time a call asks its timers for is at most
    [rateLimitWindow + rateLimitResetBuffer + minRequestInterval]: the
    minimum-interval wait is added to the window wait. *)
Theorem suspension_bound (clock : list (Z * Z)) :
  0 ≤ minRequestInterval config → 0 ≤ rateLimitWindow config →
  0 ≤ rateLimitResetBuffer config → 0 < maxRequestsPerWindow config →
  monotonic 0 clock →
  length (calls config initial clock) = length clock ∧
  Forall (suspendedAtMost (rateLimitWindow config + rateLimitResetBuffer config
                           + minRequestInterval config))
         (calls config initial clock).
Proof.
  intros Hmin Hwin Hbuf Hk Hmono. split; [apply calls_length|].
  apply calls_total; [done | constructor | done].
Qed.

(** *** The log and the spacing of admissions *)

Lemma waitForRateLimit_log_length self now resumed :
  0 < maxRequestsPerWindow config →
  Z.of_nat (length (requestTimes (limiter (waitForRateLimit config self now resumed))))
  ≤ maxRequestsPerWindow config.
Proof.
  intros Hk. rewrite waitForRateLimit_log, length_app.
  destruct (overLimit config _) eqn:Hover; simpl; [lia|].
  apply overLimit_false in Hover. lia.
Qed.

(** With a positive limit, the request log holds at most
    [maxRequestsPerWindow] timestamps after every call, whatever the
    clock does and whatever the log held before. *)
Theorem log_bounded (self : SyncRateLimiter) (clock : list (Z * Z)) :
  0 < maxRequestsPerWindow config →
  Forall (λ a, Z.of_nat (length (requestTimes (limiter a))) ≤ maxRequestsPerWindow config)
         (calls config self clock).
Proof.
  intros Hk. revert self.
  induction clock as [|[now resumed] clock IH]; intros self; simpl; constructor.
  - by apply waitForRateLimit_log_length.
  - apply IH.
Qed.

(** A call resumes at least [minRequestInterval] after the previous
    admission, when no timer fires early. *)
Lemma waitForRateLimit_spacing self now resumed :
  0 < maxRequestsPerWindow config → 0 ≤ rateLimitResetBuffer config →
  (∀ total,
     totalSuspension (suspensions (waitForRateLimit config self now resumed)) = Some total →
     now + total ≤ resumed) →
  lastRequestTime self + minRequestInterval config ≤ resumed.
Proof.
  intros Hk Hbuf Htimer. rewrite waitForRateLimit_suspensions in Htimer.
  destruct (overLimit config (prune config now (requestTimes self))) eqn:Hover.
  - destruct (overLimit_oldest self now Hk Hover) as (oldest & _ & _ & Hinside & Hwait).
    rewrite Hwait in Htimer.
    case_bool_decide; simpl in Htimer; specialize (Htimer _ eq_refl); lia.
  - case_bool_decide; simpl in Htimer; specialize (Htimer _ eq_refl); lia.
Qed.

(** Consecutive admissions of one limiter are at least
    [minRequestInterval] apart (the first at least that much after time
    0, the initial [lastRequestTime]), for a positive limit and a
    non-negative reset buffer, when no timer fires early. *)
Theorem admissions_spaced (clock : list (Z * Z)) :
  0 < maxRequestsPerWindow config → 0 ≤ rateLimitResetBuffer config →
  timersOnTime config initial clock →
  spaced (minRequestInterval config) (lastRequestTime initial)
         (admissions config initial clock).
Proof.
  intros Hk Hbuf. generalize initial as self.
  induction clock as [|[now resumed] clock IH]; intros self Htimers; [done|].
  destruct Htimers as [Htimer Htimers]. unfold admissions. simpl.
  rewrite waitForRateLimit_last. split.
  - by apply (waitForRateLimit_spacing self now resumed).
  - specialize (IH _ Htimers). by rewrite waitForRateLimit_last in IH.
Qed.

(** *** What the limiter remembers of the admissions *)

Lemma filter_length_impl (P Q : Z → Prop) `{!∀ x, Decision (P x)} `{!∀ x, Decision (Q x)}
    (l : list Z) :
  (∀ x, x ∈ l → P x → Q x) → (length (filter P l) ≤ length (filter Q l))%nat.
Proof.
  induction l as [|x l IH]; intros Himpl; [done|].
  rewrite !filter_cons.
  assert (IH' : (length (filter P l) ≤ length (filter Q l))%nat).
  { apply IH. intros y Hy. apply Himpl. by apply list_elem_of_further. }
  destruct (decide (P x)) as [HP|HP].
  - rewrite decide_True by (apply Himpl; [apply list_elem_of_here | done]).
    simpl. lia.
  - destruct (decide (Q x)); simpl; lia.
Qed.

Lemma filter_length_none (P : Z → Prop) `{!∀ x, Decision (P x)} (l : list Z) :
  (∀ x, x ∈ l → ¬ P x) → length (filter P l) = 0%nat.
Proof.
  intros Hnone. induction l as [|x l IH]; [done|].
  rewrite filter_cons, decide_False by (apply Hnone, list_elem_of_here).
  apply IH. intros y Hy. by apply Hnone, list_elem_of_further.
Qed.

Lemma recent_app window t l1 l2 :
  recent window t (l1 ++ l2) = (recent window t l1 + recent window t l2)%nat.
Proof. unfold recent. by rewrite filter_app, length_app. Qed.

Lemma recent_perm window t l1 l2 :
  l1 ≡ₚ l2 → recent window t l1 = recent window t l2.
Proof. unfold recent. by intros ->. Qed.

Lemma recent_le_length window t l : (recent window t l ≤ length l)%nat.
Proof. apply length_filter. Qed.

(** The later the window ends, the fewer old entries it holds. *)
Lemma recent_mono window t t' l :
  t ≤ t' → (recent window t' l ≤ recent window t l)%nat.
Proof. intros Hle. apply filter_length_impl. intros x _. simpl. lia. Qed.

Lemma recent_none window t l :
  (∀ x, x ∈ l → window ≤ t - x) → recent window t l = 0%nat.
Proof. intros Hold. apply filter_length_none. intros x Hx. specialize (Hold x Hx). simpl. lia. Qed.

(** An entry outside the window is one the count leaves out. *)
Lemma recent_lt_length window t l x :
  x ∈ l → window ≤ t - x → (recent window t l < length l)%nat.
Proof. intros Hx Hold. unfold recent. eapply length_filter_lt; [done|]. simpl. lia. Qed.

Lemma inWindow_le_recent window t t' l :
  t' ≤ t → (inWindow window t l ≤ recent window t' l)%nat.
Proof. intros Hle. apply filter_length_impl. intros x _. simpl. lia. Qed.

(** An admission made after [t] is in no window that ends at [t]. *)
Lemma inWindow_later window t l resumed :
  t < resumed → inWindow window t (l ++ [resumed]) = inWindow window t l.
Proof.
  intros Hlt. unfold inWindow. rewrite filter_app, length_app.
  rewrite (filter_length_none _ [resumed]); [lia|].
  intros x ->%list_elem_of_singleton. lia.
Qed.

(** The over-limit branch resumes only when its oldest entry has left the
    window. *)
Lemma overLimit_resumed self now resumed oldest :
  0 ≤ rateLimitResetBuffer config → 0 < maxRequestsPerWindow config →
  overLimit config (prune config now (requestTimes self)) = true →
  oldestRequest (prune config now (requestTimes self)) = Some oldest →
  (∀ total,
     totalSuspension (suspensions (waitForRateLimit config self now resumed)) = Some total →
     now + total ≤ resumed) →
  rateLimitWindow config ≤ resumed - oldest.
Proof.
  intros Hbuf Hk Hover Hold Htimer.
  destruct (overLimit_oldest self now Hk Hover) as (o & Ho & _ & _ & Hwait).
  rewrite Hold in Ho. injection Ho as <-.
  rewrite waitForRateLimit_suspensions, Hover, Hwait in Htimer.
  case_bool_decide; simpl in Htimer; specialize (Htimer _ eq_refl); lia.
Qed.

Lemma remembered_initial :
  0 < maxRequestsPerWindow config → Remembered config initial [] [].
Proof. intros Hk. split; simpl; [done|constructor|by intros ?? ?%elem_of_nil|lia|done]. Qed.

Lemma remembered_step self history forgotten now resumed :
  0 ≤ rateLimitResetBuffer config → 0 < maxRequestsPerWindow config →
  Remembered config self history forgotten →
  lastRequestTime self ≤ now → now ≤ resumed →
  (∀ total,
     totalSuspension (suspensions (waitForRateLimit config self now resumed)) = Some total →
     now + total ≤ resumed) →
  ∃ forgotten',
    Remembered config (limiter (waitForRateLimit config self now resumed))
      (history ++ [resumed]) forgotten'.
Proof.
  intros Hbuf Hk [Hsplit Hpast Horder Hlog Hforgot] Hnow Hres Htimer.
  rewrite Forall_forall in Hpast.
  assert (Hhist : ∀ x, x ∈ forgotten ++ requestTimes self → x ≤ resumed).
  { intros x Hx. rewrite <- Hsplit in Hx. specialize (Hpast x Hx). lia. }
  assert (Hpast' : Forall (λ t, t ≤ resumed) (history ++ [resumed])).
  { apply Forall_app. split; [|repeat constructor; lia].
    apply Forall_forall. intros x Hx. specialize (Hpast x Hx). lia. }
  destruct (overLimit config (prune config now (requestTimes self))) eqn:Hover.
  - (* the log is cleared: all of it is forgotten *)
    exists (forgotten ++ requestTimes self).
    destruct (overLimit_oldest self now Hk Hover) as (oldest & Hold & Hin & _ & _).
    pose proof (overLimit_resumed self now resumed oldest Hbuf Hk Hover Hold Htimer) as Hleft.
    split; rewrite ?waitForRateLimit_log, ?waitForRateLimit_last, ?Hover; simpl.
    + by rewrite Hsplit.
    + done.
    + intros f l Hf ->%list_elem_of_singleton. by apply Hhist.
    + lia.
    + rewrite recent_app, recent_none.
      * pose proof (recent_lt_length _ _ _ _ Hin Hleft). lia.
      * intros f Hf. specialize (Horder f oldest Hf Hin). lia.
  - (* the pruned entries are forgotten *)
    exists (forgotten ++ filter (λ time, ¬ now - time < rateLimitWindow config) (requestTimes self)).
    pose proof (proj1 (overLimit_false _) Hover) as Hfew.
    split; rewrite ?waitForRateLimit_log, ?waitForRateLimit_last, ?Hover; simpl.
    + rewrite Hsplit. unfold prune.
      rewrite <- (filter_app_complement (λ time, now - time < rateLimitWindow config)
                    (requestTimes self)) at 1.
      rewrite !(assoc_L (++)). apply Permutation_app_tail.
      rewrite <- !(assoc_L (++)). apply Permutation_app_head, Permutation_app_comm.
    + done.
    + intros f l [Hf|Hf]%elem_of_app [Hl|Hl]%elem_of_app.
      * apply Horder; [done|]. by apply prune_elem in Hl as [_ Hl].
      * apply list_elem_of_singleton in Hl as ->. apply Hhist, elem_of_app. by left.
      * apply list_elem_of_filter in Hf as [Hf _]. apply prune_elem in Hl as [Hl _]. lia.
      * apply list_elem_of_singleton in Hl as ->. apply list_elem_of_filter in Hf as [_ Hf].
        apply Hhist, elem_of_app. by right.
    + rewrite length_app. simpl. lia.
    + rewrite recent_app, (recent_none _ _ (filter _ _)).
      * pose proof (recent_mono (rateLimitWindow config) (lastRequestTime self) resumed
                      forgotten ltac:(lia)). lia.
      * intros x [Hx _]%list_elem_of_filter. lia.
Qed.

(** Of all admissions so far, at most [2 * maxRequestsPerWindow - 1] are
    inside the window that ends at the last one. *)
Lemma remembered_recent self history forgotten :
  Remembered config self history forgotten →
  Z.of_nat (recent (rateLimitWindow config) (lastRequestTime self) history)
  ≤ 2 * maxRequestsPerWindow config - 1.
Proof.
  intros [Hsplit _ _ Hlog Hforgot].
  rewrite (recent_perm _ _ _ _ Hsplit), recent_app.
  pose proof (recent_le_length (rateLimitWindow config) (lastRequestTime self)
                (requestTimes self)). lia.
Qed.

Lemma remembered_calls self history forgotten clock :
  0 ≤ rateLimitResetBuffer config → 0 < maxRequestsPerWindow config →
  Remembered config self history forgotten →
  (∀ t, Z.of_nat (inWindow (rateLimitWindow config) t history)
        ≤ 2 * maxRequestsPerWindow config - 1) →
  monotonic (lastRequestTime self) clock → timersOnTime config self clock →
  Forall (λ a, Z.of_nat (length (requestTimes (limiter a))) ≤ maxRequestsPerWindow config)
         (calls config self clock) ∧
  ∀ t, Z.of_nat (inWindow (rateLimitWindow config) t
                   (history ++ admissions config self clock))
       ≤ 2 * maxRequestsPerWindow config - 1.
Proof.
  intros Hbuf Hk. revert self history forgotten.
  induction clock as [|[now resumed] clock IH];
    intros self history forgotten Hrem Hwin Hmono Htimers.
  - unfold admissions. simpl. rewrite app_nil_r. by split.
  - destruct Hmono as (Hnow & Hres & Hmono). destruct Htimers as [Htimer Htimers].
    destruct (remembered_step self history forgotten now resumed
                Hbuf Hk Hrem Hnow Hres Htimer) as [forgotten' Hrem'].
    rewrite <- (waitForRateLimit_last self now resumed) in Hmono.
    destruct (IH _ _ _ Hrem') as [Hlogs Hwins]; [|done|done|].
    + intros t. destruct (decide (t < resumed)) as [Hlt|Hge].
      * by rewrite inWindow_later.
      * pose proof (remembered_recent _ _ _ Hrem') as Hrec.
        rewrite waitForRateLimit_last in Hrec.
        pose proof (inWindow_le_recent (rateLimitWindow config) t resumed
                      (history ++ [resumed]) ltac:(lia)). lia.
    + split.
      * simpl. constructor; [|done]. apply (rem_log _ _ _ _ Hrem').
      * intros t. specialize (Hwins t). unfold admissions in *. simpl.
        rewrite waitForRateLimit_last in *.
        by rewrite <- (assoc_L (++)) in Hwins.
Qed.

(** C1, as the code has it.  With a positive limit, a non-negative reset
    buffer, a clock that does not run backwards and timers that do not
    fire early: after every admission the request log holds at most
    [maxRequestsPerWindow] timestamps, and no trailing window of length
    [rateLimitWindow] contains more than [2 * maxRequestsPerWindow - 1]
    admission timestamps (the limiter counts only what its log still
    holds, and clearing the log forgets admissions that are still inside
    the window). *)
Theorem trailing_window_bound (clock : list (Z * Z)) :
  0 < maxRequestsPerWindow config → 0 ≤ rateLimitResetBuffer config →
  monotonic 0 clock → timersOnTime config initial clock →
  Forall (λ a, Z.of_nat (length (requestTimes (limiter a))) ≤ maxRequestsPerWindow config)
         (calls config initial clock) ∧
  ∀ t, Z.of_nat (inWindow (rateLimitWindow config) t (admissions config initial clock))
       ≤ 2 * maxRequestsPerWindow config - 1.
Proof.
  intros Hk Hbuf Hmono Htimers.
  apply (remembered_calls initial [] []); try done.
  - by apply remembered_initial.
  - intros t. unfold inWindow. simpl. lia.
Qed.

End SyncRateLimiterProperties.

(** *** The sample runs *)

Section SyncRateLimiterRuns.
Import SyncRateLimiter.

Lemma burst_environment :
  nonNegative burstConfig ∧ monotonic 0 burstClock ∧
  timersOnTime burstConfig initial burstClock.
Proof.
  unfold nonNegative. simpl.
  repeat split; try lia; vm_compute; intros total [= <-]; discriminate.
Qed.

Lemma tight_environment :
  nonNegative tightConfig ∧ monotonic 0 tightClock ∧
  timersOnTime tightConfig initial tightClock.
Proof.
  unfold nonNegative. simpl.
  repeat split; try lia; vm_compute; intros total [= <-]; discriminate.
Qed.

(** C1, as stated, fails on the burst run: the configuration allows two
    requests per window of 1000 ms, the environment is well behaved, and
    the admissions at 10500, 11050 and 11200 all lie in the window that
    ends at 11200.  The third call found its log full, waited until the
    oldest entry had left the window and cleared the log, entry 10500
    included. *)
Lemma trailing_window_exceeded :
  nonNegative burstConfig ∧ monotonic 0 burstClock ∧
  timersOnTime burstConfig initial burstClock ∧
  admissions burstConfig initial burstClock = [10000; 10500; 11050; 11200] ∧
  inWindow (rateLimitWindow burstConfig) 11200 [10000; 10500; 11050; 11200] = 3%nat ∧
  ¬ windowBounded burstConfig burstClock.
Proof.
  destruct burst_environment as (Hcfg & Hmono & Htimers).
  split; [done|]. split; [done|]. split; [done|].
  split; [reflexivity|]. split; [reflexivity|].
  intros Hbound. specialize (Hbound 11200). vm_compute in Hbound. by apply Hbound.
Qed.

(** The bound at the burst run, where three admissions share a window. *)
Lemma trailing_window_bound_witness :
  Forall (λ a, Z.of_nat (length (requestTimes (limiter a))) ≤ 2)
         (calls burstConfig initial burstClock) ∧
  ∀ t, Z.of_nat (inWindow 1000 t (admissions burstConfig initial burstClock)) ≤ 3.
Proof.
  apply (trailing_window_bound burstConfig burstClock).
  - simpl; lia.
  - simpl; lia.
  - apply burst_environment.
  - apply burst_environment.
Defined.

(** C3, as stated, fails on the tight run: the second call asks its
    timers for 1040 ms (window) and then 90 ms (minimum interval), 1130 ms
    in all, more than [rateLimitWindow + rateLimitResetBuffer] = 1050. *)
Lemma suspension_exceeds_window :
  nonNegative tightConfig ∧ monotonic 0 tightClock ∧
  timersOnTime tightConfig initial tightClock ∧
  (suspensions <$> calls tightConfig initial tightClock) = [[]; [Some 1040; Some 90]] ∧
  ¬ Forall (suspendedAtMost (rateLimitWindow tightConfig + rateLimitResetBuffer tightConfig))
           (calls tightConfig initial tightClock).
Proof.
  destruct tight_environment as (Hcfg & Hmono & Htimers).
  split; [done|]. split; [done|]. split; [done|]. split; [reflexivity|].
  intros Hall. apply Forall_cons_1 in Hall as [_ Hall].
  apply Forall_cons_1 in Hall as [(total & Htotal & Hbound) _].
  vm_compute in Htotal. injection Htotal as <-. simpl in Hbound. lia.
Qed.

(** The bound at the tight run. *)
Lemma suspension_bound_witness :
  length (calls tightConfig initial tightClock) = 2%nat ∧
  Forall (suspendedAtMost 1150) (calls tightConfig initial tightClock).
Proof.
  apply (suspension_bound tightConfig tightClock); simpl; lia.
Defined.

(** The log bound and the spacing at the burst run. *)
Lemma log_bounded_witness :
  Forall (λ a, Z.of_nat (length (requestTimes (limiter a))) ≤ 2)
         (calls burstConfig initial burstClock).
Proof. apply (log_bounded burstConfig initial burstClock). simpl; lia. Defined.

Lemma admissions_spaced_witness :
  spaced 100 0 (admissions burstConfig initial burstClock).
Proof.
  apply (admissions_spaced burstConfig burstClock); [simpl; lia ..|].
  apply burst_environment.
Defined.

(** The over-limit branch at the second call of the tight run. *)
Lemma oldestRequest_defined_witness :
  (overLimit tightConfig (prune tightConfig 5010 [5000]) = true →
   ∃ oldest,
     oldestRequest (prune tightConfig 5010 [5000]) = Some oldest ∧
     oldest ∈ [5000] ∧
     5010 - oldest < 1000 ∧
     waitTime tightConfig 5010 (oldestRequest (prune tightConfig 5010 [5000]))
     = Some (1000 - (5010 - oldest) + 50)) ∧
  Forall is_Some
    (suspensions (waitForRateLimit tightConfig
                    {| requestTimes := [5000]; lastRequestTime := 5000 |} 5010 6140)).
Proof.
  apply (oldestRequest_defined tightConfig
           {| requestTimes := [5000]; lastRequestTime := 5000 |} 5010 6140).
  simpl; lia.
Defined.

End SyncRateLimiterRuns.

(* ===================================================================== *)
(** ** Properties of AsyncRateLimiter *)
(* ===================================================================== *)

Section ConstructorProperties.
Import Js AsyncRateLimiter.

Lemma constructor_throws (config : AsyncRateLimiterConfig) :
  (∃ error, constructor config = Throws error ∧ instanceofError error = true) ↔
  ¬ validConfig config.
Proof.
  unfold constructor, validConfig.
  destruct (minTime config) as [m|]; repeat case_bool_decide;
    (split;
     [ intros (error & Heq & _); try discriminate Heq;
       intros (? & ? & ? & Hmin); try specialize (Hmin _ eq_refl); lia
     | intros Hnot; try (eexists; split; reflexivity);
       exfalso; apply Hnot; repeat split; try lia; intros ? [= <-]; lia ]).
Qed.

Lemma constructor_built (config : AsyncRateLimiterConfig) (self : Bottleneck) :
  constructor config = Built self →
  validConfig config ∧
  self = new_Bottleneck (options self) ∧
  bn_maxConcurrent (options self) = maxConcurrent config ∧
  reservoir (options self) = intervalCap config.
Proof.
  unfold constructor, validConfig.
  destruct (minTime config) as [m|]; repeat case_bool_decide; intros [= <-];
    simpl; repeat split; try lia; intros ? [= <-]; lia.
Qed.

Lemma ceilDiv_spec (a b : Z) :
  0 < b → b * (ceilDiv a b - 1) < a ≤ b * ceilDiv a b.
Proof.
  intros Hb. unfold ceilDiv.
  pose proof (Z.div_mod (- a) b ltac:(lia)).
  pose proof (Z.mod_pos_bound (- a) b Hb). lia.
Qed.

(** When the constructor builds the limiter, Bottleneck gets
    [maxConcurrent], a reservoir of [intervalCap] tokens refilled to
    [intervalCap] every [interval], and as [minTime] the configured
    value or, when there is none, [interval / intervalCap] rounded up;
    in both cases a positive number. *)
Theorem constructor_options (config : AsyncRateLimiterConfig) (self : Bottleneck) :
  constructor config = Built self →
  self = new_Bottleneck (options self) ∧
  bn_maxConcurrent (options self) = maxConcurrent config ∧
  reservoir (options self) = intervalCap config ∧
  reservoirRefreshAmount (options self) = intervalCap config ∧
  reservoirRefreshInterval (options self) = interval config ∧
  0 < bn_minTime (options self) ∧
  match minTime config with
  | Some m => bn_minTime (options self) = m
  | None =>
      intervalCap config * (bn_minTime (options self) - 1) < interval config
      ≤ intervalCap config * bn_minTime (options self)
  end.
Proof.
  unfold constructor.
  destruct (minTime config) as [m|]; repeat case_bool_decide; intros [= <-]; simpl;
    repeat split; try lia.
  - pose proof (ceilDiv_spec (interval config) (intervalCap config)). nia.
  - apply ceilDiv_spec. lia.
  - apply ceilDiv_spec. lia.
Qed.

(** C7.  [new AsyncRateLimiter(config)] throws (synchronously, an
    [Error]) exactly when the configuration violates one of
    [maxConcurrent > 0], [intervalCap >= maxConcurrent], [interval > 0]
    and, when [minTime] is given, [minTime > 0]; in particular it throws
    for every configuration with [intervalCap < maxConcurrent]. *)
Theorem constructor_validates (config : AsyncRateLimiterConfig) :
  ((∃ error, constructor config = Throws error ∧ instanceofError error = true) ↔
   ¬ validConfig config) ∧
  (intervalCap config < maxConcurrent config →
   ∃ error, constructor config = Throws error ∧ instanceofError error = true).
Proof.
  split; [apply constructor_throws|].
  intros Hcap. apply constructor_throws. intros (_ & Hle & _). lia.
Qed.

End ConstructorProperties.

Section ProcessItemsProperties.
Import Js AsyncRateLimiter.
Context {T R : Type}.
Variable settles : nat → nat.
Variable processor : T → PromiseSettledResult R.

(** Scheduling hands every job's outcome through, in the order of the
    items, and queues one job per item. *)
Lemma scheduleAll_outcomes (items : list T) (self : Bottleneck) :
  outcome <$> fst (scheduleAll settles processor items self) = processor <$> items.
Proof.
  revert self. induction items as [|x items IH]; intros self; [done|].
  specialize (IH (submit self)). simpl.
  destruct (scheduleAll settles processor items (submit self)) as [promises self2].
  simpl in *. f_equal. exact IH.
Qed.

Lemma scheduleAll_limiter (items : list T) (self : Bottleneck) :
  snd (scheduleAll settles processor items self) = Nat.iter (length items) submit self.
Proof.
  revert self. induction items as [|x items IH]; intros self; [done|].
  specialize (IH (submit self)). simpl.
  destruct (scheduleAll settles processor items (submit self)) as [promises self2].
  simpl in *. rewrite IH. clear IH.
  induction (length items) as [|n IHn]; [done|]. simpl. by rewrite IHn.
Qed.

Lemma submit_iter_submitted (n : nat) (self : Bottleneck) :
  submitted (Nat.iter n submit self) = (submitted self + n)%nat.
Proof. induction n as [|n IH]; simpl; [lia|]. rewrite IH. lia. Qed.

(** The reduction appends, for the items from [index] on, the fulfilled
    values to [successful] and the failures to [failed], each in the
    order of the items. *)
Lemma reduce_spec (before rest : list T) (acc : ResultAccumulator T R) :
  reduce (before ++ rest) (processor <$> rest) (length before) acc =
  {| successful := successful acc ++ omap valueOf (processor <$> rest);
     failed := failed acc ++ omap (failureOf processor) rest |}.
Proof.
  revert before acc. induction rest as [|x rest IH]; intros before acc.
  - simpl. rewrite !app_nil_r. by destruct acc.
  - rewrite fmap_cons. simpl reduce.
    replace (before ++ x :: rest) with ((before ++ [x]) ++ rest)
      by (by rewrite <- (assoc_L (++))).
    replace (S (length before)) with (length (before ++ [x]))
      by (rewrite length_app; simpl; lia).
    rewrite IH. unfold collect, failureOf.
    rewrite <- (assoc_L (++) before [x] rest). simpl.
    rewrite list_lookup_middle by done.
    destruct (processor x) as [value|reason]; simpl;
      by rewrite <- ?(assoc_L (++)).
Qed.

Lemma processItems_spec (items : list T) (self : Bottleneck) :
  processItems settles items processor self =
  ({| successful := omap valueOf (processor <$> items);
      failed := omap (failureOf processor) items |},
   Nat.iter (length items) submit self).
Proof.
  unfold processItems, Promise_allSettled.
  pose proof (scheduleAll_outcomes items self) as Hout.
  pose proof (scheduleAll_limiter items self) as Hlim.
  destruct (scheduleAll settles processor items self) as [promises self'].
  simpl in *. rewrite Hout, Hlim. f_equal.
  apply (reduce_spec [] items {| successful := []; failed := [] |}).
Qed.

Lemma outcomes_partition (items : list T) :
  (length (omap valueOf (processor <$> items))
   + length (omap (failureOf processor) items) = length items)%nat.
Proof.
  induction items as [|x items IH]; [done|].
  rewrite fmap_cons. cbn. unfold failureOf at 1.
  destruct (processor x); cbn; lia.
Qed.

(** C2.  The result of [processItems] accounts for every item exactly
    once, in the order of [items]: [successful] holds the value of
    every item whose processor fulfilled and nothing else, [failed]
    holds one entry for every item whose processor rejected and nothing
    else, pairing the item with the error it rejected with, a reason
    that is not an [Error] being replaced by
    [new Error('Unknown error')].  Hence the two lists together are as
    long as [items], every entry of [failed] comes from a rejected item,
    and every rejected item has its entry. *)
Theorem processItems_partition (items : list T) (self : Bottleneck) :
  successful (fst (processItems settles items processor self))
  = omap (λ x, match processor x with
               | fulfilled value => Some value
               | rejected _ => None
               end) items ∧
  failed (fst (processItems settles items processor self))
  = omap (λ x, match processor x with
               | fulfilled _ => None
               | rejected reason =>
                   Some {| item := Some x;
                           error := if instanceofError reason then reason
                                    else new_Error "Unknown error" |}
               end) items ∧
  (length (successful (fst (processItems settles items processor self)))
   + length (failed (fst (processItems settles items processor self)))
   = length items)%nat ∧
  (∀ failure, failure ∈ failed (fst (processItems settles items processor self)) →
     ∃ x reason,
       x ∈ items ∧ processor x = rejected reason ∧ item failure = Some x ∧
       instanceofError (error failure) = true ∧
       (instanceofError reason = true → error failure = reason) ∧
       (instanceofError reason = false → error failure = new_Error "Unknown error")) ∧
  (∀ x reason, x ∈ items → processor x = rejected reason →
     ∃ failure, failure ∈ failed (fst (processItems settles items processor self)) ∧
                item failure = Some x) ∧
  (∀ x value, x ∈ items → processor x = fulfilled value →
     value ∈ successful (fst (processItems settles items processor self))) ∧
  (∀ value, value ∈ successful (fst (processItems settles items processor self)) →
     ∃ x, x ∈ items ∧ processor x = fulfilled value).
Proof.
  rewrite processItems_spec. simpl.
  split; [|split; [reflexivity|]]; [|split; [apply outcomes_partition|]].
  - induction items as [|x items IH]; [done|].
    rewrite fmap_cons. cbn. rewrite <- IH. by destruct (processor x).
  - split; [|split; [|split]].
    + intros failure (x & Hx & Hfail)%list_elem_of_omap.
      unfold failureOf in Hfail.
      destruct (processor x) as [value|reason] eqn:Hproc; [done|].
      injection Hfail as <-. exists x, reason. simpl.
      destruct (instanceofError reason) eqn:Hinst; by repeat split.
    + intros x reason Hx Hproc. eexists. split.
      * apply list_elem_of_omap. exists x. split; [done|].
        unfold failureOf. by rewrite Hproc.
      * done.
    + intros x value Hx Hproc. apply list_elem_of_omap.
      exists (processor x). split; [by apply list_elem_of_fmap_2|].
      by rewrite Hproc.
    + intros value (result & (x & -> & Hx)%list_elem_of_fmap & Hvalue)%list_elem_of_omap.
      exists x. split; [done|]. by destruct (processor x) as [v|]; simplify_eq/=.
Qed.

(** C8.  On the empty list [processItems] returns
    [{successful: [], failed: []}] and leaves the limiter as it found it:
    [schedule] is not called.  In general it calls [schedule] once per
    item. *)
Theorem processItems_empty (self : Bottleneck) :
  processItems settles [] processor self = ({| successful := []; failed := [] |}, self) ∧
  ∀ items,
    submitted (snd (processItems settles items processor self))
    = (submitted self + length items)%nat.
Proof.
  split; [reflexivity|].
  intros items. rewrite processItems_spec. simpl. apply submit_iter_submitted.
Qed.

End ProcessItemsProperties.

Section CompletionOrder.
Import Js AsyncRateLimiter.

(** C4, as stated, fails: with items [1, 2, 3], the processor of the
    documentation and jobs that settle in the order 3, 2, 1, the
    fulfilled values in completion order are [30, 10], and
    [processItems] returns [successful = [10, 30]]. *)
Lemma completion_order_ignored :
  (settledAt <$> fst (scheduleAll laterFirst docProcessor [1; 2; 3] docLimiter))
  = [10; 9; 8]%nat ∧
  successfulByCompletion laterFirst docProcessor [1; 2; 3] docLimiter = [30; 10] ∧
  successful (fst (processItems laterFirst [1; 2; 3] docProcessor docLimiter)) = [10; 30] ∧
  successful (fst (processItems laterFirst [1; 2; 3] docProcessor docLimiter))
  ≠ successfulByCompletion laterFirst docProcessor [1; 2; 3] docLimiter.
Proof. repeat split; try reflexivity. vm_compute. discriminate. Qed.

(** C4, as the code has it.  The entries of [successful] and of [failed]
    follow the order of [items] (submission order): [Promise.allSettled]
    returns the outcomes in the order of the promises it was given, so
    the instants at which the jobs settle have no influence on the
    result.  For items [1, 2, 3] and a processor that throws the error
    [E] for item 2 only, [successful = [f(1), f(3)]] and
    [failed = [{item: 2, error: E}]]. *)
Theorem processItems_submission_order {T R : Type} (settles settles' : nat → nat)
    (processor : T → PromiseSettledResult R) (items : list T) (self : Bottleneck) :
  fst (processItems settles items processor self)
  = fst (processItems settles' items processor self) ∧
  successful (fst (processItems settles items processor self))
  = omap valueOf (processor <$> items) ∧
  failed (fst (processItems settles items processor self))
  = omap (failureOf processor) items ∧
  ∀ (f : Z → R) (name message : string) (marked : bool),
    fst (processItems settles [1; 2; 3]
           (λ x, if bool_decide (x = 2)
                 then rejected (ErrorObject name message marked)
                 else fulfilled (f x)) self)
    = {| successful := [f 1; f 3];
         failed := [{| item := Some 2; error := ErrorObject name message marked |}] |}.
Proof.
  rewrite !processItems_spec. simpl. repeat split; reflexivity.
Qed.

End CompletionOrder.

Section DispatcherProperties.
Import Js AsyncRateLimiter.

Lemma submit_iter_frame (n : nat) (b : Bottleneck) :
  options (Nat.iter n submit b) = options b ∧
  inFlight (Nat.iter n submit b) = inFlight b.
Proof. induction n as [|n [IHo IHf]]; [done|]. simpl. by rewrite IHo, IHf. Qed.

Lemma mayDispatch_slot (b : Bottleneck) :
  mayDispatch b = true →
  Z.of_nat (length (inFlight b)) < bn_maxConcurrent (options b).
Proof.
  unfold mayDispatch. intros [[Hslot _]%andb_prop _]%andb_prop.
  by apply bool_decide_eq_true in Hslot.
Qed.

(** No step changes the options, and no step takes the number of jobs
    in flight above [maxConcurrent]. *)
Lemma step_keeps_bound (b b' : Bottleneck) :
  step b b' →
  Z.of_nat (length (inFlight b)) ≤ bn_maxConcurrent (options b) →
  options b' = options b ∧
  Z.of_nat (length (inFlight b')) ≤ bn_maxConcurrent (options b').
Proof.
  intros Hstep Hbound.
  inversion Hstep as [ | ? job rest Hqueue Hmay | ? job Hjob | | ]; subst; simpl;
    try done.
  - apply mayDispatch_slot in Hmay. split; [done|].
    rewrite length_app. simpl. lia.
  - split; [done|].
    pose proof (length_filter (λ j, j ≠ job) (inFlight b)). lia.
Qed.

Lemma reachable_keeps_bound (b b' : Bottleneck) :
  rtc step b b' →
  Z.of_nat (length (inFlight b)) ≤ bn_maxConcurrent (options b) →
  options b' = options b ∧
  Z.of_nat (length (inFlight b')) ≤ bn_maxConcurrent (options b').
Proof.
  intros Hreach Hbound. induction Hreach as [b|b b1 b2 Hstep _ IH]; [done|].
  destruct (step_keeps_bound _ _ Hstep Hbound) as [Hopts Hbound1].
  destruct (IH Hbound1) as [Hopts2 Hbound2]. split; [congruence|done].
Qed.

(** C9.  From a limiter built by the constructor with
    [maxConcurrent = c], after any number of jobs submitted at once and
    whatever happens next (dispatches, settlements, refills, passing of
    time, further submissions), at most [c] jobs are in flight. *)
Theorem inFlight_bounded (config : AsyncRateLimiterConfig) (self b : Bottleneck) (n : nat) :
  constructor config = Built self →
  rtc step (Nat.iter n submit self) b →
  Z.of_nat (length (inFlight b)) ≤ maxConcurrent config.
Proof.
  intros (Hvalid & Hnew & Hmax & _)%constructor_built Hreach.
  destruct (submit_iter_frame n self) as [Hopts Hfly].
  apply reachable_keeps_bound in Hreach as [Hopts' Hbound].
  - by rewrite Hopts', Hopts, Hmax in Hbound.
  - rewrite Hopts, Hfly, Hmax, Hnew. simpl. destruct Hvalid. lia.
Qed.

(** The options built from the configuration of the documentation. *)
Lemma constructor_options_witness :
  docLimiter = new_Bottleneck (options docLimiter) ∧
  bn_maxConcurrent (options docLimiter) = 5 ∧
  reservoir (options docLimiter) = 20 ∧
  reservoirRefreshAmount (options docLimiter) = 20 ∧
  reservoirRefreshInterval (options docLimiter) = 10000 ∧
  0 < bn_minTime (options docLimiter) ∧
  bn_minTime (options docLimiter) = 200.
Proof. apply (constructor_options docConfig docLimiter). reflexivity. Defined.

(** The bound at the documentation's limiter, one job dispatched. *)
Lemma inFlight_bounded_witness :
  Z.of_nat (length (inFlight docDispatched)) ≤ maxConcurrent docConfig.
Proof.
  apply (inFlight_bounded docConfig docLimiter docDispatched 3).
  - reflexivity.
  - apply rtc_once.
    exact (step_dispatch (Nat.iter 3 submit docLimiter) 0%nat [1; 2]%nat eq_refl eq_refl).
Defined.

End DispatcherProperties.

(* ===================================================================== *)
(** ** Properties of PromptUtils *)
(* ===================================================================== *)

Section RetryProperties.
Import Js PromptUtils.
Context {T : Type}.
Variable operation : nat → PromiseSettledResult T.

(** When every attempt fails with an error that is retried, the loop
    that still has [r + 1] attempts to make, the next numbered
    [attempt], makes them all, sleeps between them and rethrows the
    error of the last one. *)
Lemma retryLoop_exhausts (retryOnly : bool) (maxRetries delayMs : Z)
    (r attempt : nat) (slept : list Z) :
  (∀ n, ∃ error, operation n = rejected error ∧
                 negb retryOnly || isParsingError error = true) →
  Z.of_nat (attempt + r) = maxRetries →
  ∃ error,
    operation (attempt + r)%nat = rejected error ∧
    retryLoop operation retryOnly maxRetries delayMs (S r) attempt slept =
    {| completion := Rethrows error; invocations := (attempt + r)%nat;
       delays := slept ++ replicate r delayMs |}.
Proof.
  intros Hfails. revert attempt slept.
  induction r as [|r IH]; intros attempt slept Hlast.
  - destruct (Hfails attempt) as (error & Hop & Hretry).
    exists error. rewrite Nat.add_0_r in *. split; [done|].
    simpl. rewrite Hop, Hretry. simpl.
    rewrite bool_decide_eq_true_2 by done. by rewrite app_nil_r.
  - destruct (Hfails attempt) as (error & Hop & Hretry).
    destruct (IH (S attempt) (slept ++ [delayMs])) as (last & Hlastop & Hloop); [lia|].
    exists last. replace (attempt + S r)%nat with (S attempt + r)%nat by lia.
    split; [done|].
    change (retryLoop operation retryOnly maxRetries delayMs (S (S r)) attempt slept)
      with (match operation attempt with
            | fulfilled value =>
                {| completion := Returns value; invocations := attempt; delays := slept |}
            | rejected error =>
                if negb (negb retryOnly || isParsingError error)
                   || bool_decide (Z.of_nat attempt = maxRetries)
                then {| completion := Rethrows error; invocations := attempt;
                        delays := slept |}
                else retryLoop operation retryOnly maxRetries delayMs
                       (S r) (S attempt) (slept ++ [delayMs])
            end).
    rewrite Hop, Hretry. simpl negb. simpl orb.
    rewrite bool_decide_eq_false_2 by lia.
    rewrite Hloop. by rewrite <- (assoc_L (++)).
Qed.

(** C5.  If the operation throws a retryable error on every attempt,
    [retryParsingOperation(op, true, 3, delayMs)] invokes it exactly
    three times, sleeps [delayMs] twice, and rethrows the very error of
    the third attempt. *)
Theorem retry_bound (delayMs : Z) :
  (∀ n, ∃ error, operation n = rejected error ∧ isParsingError error = true) →
  ∃ error,
    operation 3%nat = rejected error ∧
    retryParsingOperation operation true 3 delayMs =
    {| completion := Rethrows error; invocations := 3; delays := [delayMs; delayMs] |}.
Proof.
  intros Hfails.
  destruct (retryLoop_exhausts true 3 delayMs 2 1 []) as (error & Hop & Hloop).
  - intros n. destruct (Hfails n) as (error & Hop & Hretry). exists error.
    by rewrite Hretry.
  - done.
  - exists error. split; [exact Hop|]. exact Hloop.
Qed.

(** For every [maxRetries >= 1], restricted or not: if every attempt
    fails with an error that is retried, the operation is invoked
    exactly [maxRetries] times, with the same fixed delay between
    attempts, and the error of the last attempt is rethrown. *)
Theorem retry_exhausts (retryOnly : bool) (maxRetries delayMs : Z) :
  1 ≤ maxRetries →
  (∀ n, ∃ error, operation n = rejected error ∧
                 negb retryOnly || isParsingError error = true) →
  ∃ error,
    operation (Z.to_nat maxRetries) = rejected error ∧
    retryParsingOperation operation retryOnly maxRetries delayMs =
    {| completion := Rethrows error; invocations := Z.to_nat maxRetries;
       delays := replicate (Z.to_nat maxRetries - 1) delayMs |}.
Proof.
  intros Hmax Hfails. unfold retryParsingOperation.
  destruct (retryLoop_exhausts retryOnly maxRetries delayMs
              (Z.to_nat maxRetries - 1) 1 [] Hfails) as (error & Hop & Hloop); [lia|].
  replace (1 + (Z.to_nat maxRetries - 1))%nat with (Z.to_nat maxRetries) in * by lia.
  replace (S (Z.to_nat maxRetries - 1)) with (Z.to_nat maxRetries) in Hloop by lia.
  eauto.
Qed.

(** The loop returns the value of the first attempt that succeeds, when
    the attempts before it fail with errors that are retried. *)
Lemma retryLoop_succeeds (retryOnly : bool) (maxRetries delayMs : Z) (value : T)
    (d remaining attempt : nat) (slept : list Z) :
  (d < remaining)%nat → Z.of_nat (attempt + d) ≤ maxRetries →
  operation (attempt + d)%nat = fulfilled value →
  (∀ n, (attempt ≤ n < attempt + d)%nat →
        ∃ error, operation n = rejected error ∧
                 negb retryOnly || isParsingError error = true) →
  retryLoop operation retryOnly maxRetries delayMs remaining attempt slept =
  {| completion := Returns value; invocations := (attempt + d)%nat;
     delays := slept ++ replicate d delayMs |}.
Proof.
  revert remaining attempt slept.
  induction d as [|d IH]; intros remaining attempt slept Hfuel Hmax Hop Hfails;
    (destruct remaining as [|remaining]; [lia|]); simpl.
  - rewrite Nat.add_0_r in *. by rewrite Hop, app_nil_r.
  - destruct (Hfails attempt) as (error & Herr & Hretry); [lia|].
    rewrite Herr, Hretry. simpl.
    rewrite bool_decide_eq_false_2 by lia.
    replace (attempt + S d)%nat with (S attempt + d)%nat in * by lia.
    rewrite (IH remaining (S attempt) (slept ++ [delayMs])); try done; try lia.
    + by rewrite <- (assoc_L (++)).
    + intros n Hn. apply Hfails. lia.
Qed.

(** If attempt [j <= maxRetries] is the first to succeed and the earlier
    ones fail with errors that are retried, [retryParsingOperation]
    returns its value after exactly [j] invocations and [j - 1] delays
    of [delayMs]. *)
Theorem retry_returns_first_success (retryOnly : bool) (maxRetries delayMs : Z)
    (value : T) (j : nat) :
  (1 ≤ j)%nat → Z.of_nat j ≤ maxRetries →
  operation j = fulfilled value →
  (∀ n, (1 ≤ n < j)%nat →
        ∃ error, operation n = rejected error ∧
                 negb retryOnly || isParsingError error = true) →
  retryParsingOperation operation retryOnly maxRetries delayMs =
  {| completion := Returns value; invocations := j;
     delays := replicate (j - 1) delayMs |}.
Proof.
  intros Hj Hmax Hop Hfails. unfold retryParsingOperation.
  pose proof (retryLoop_succeeds retryOnly maxRetries delayMs value (j - 1)
                (Z.to_nat maxRetries) 1 []) as Hloop.
  replace (1 + (j - 1))%nat with j in Hloop by lia.
  apply Hloop; try done; lia.
Qed.

(** C6.  With retries restricted to parsing errors, when the first
    invocation (there is one: [maxRetries >= 1]) throws an error that is
    no [ZodError], no [NoObjectGeneratedError] and whose name does not
    contain [TimeoutError], the operation is invoked exactly once, no
    delay is slept and that error is rethrown. *)
Theorem retry_short_circuit (maxRetries delayMs : Z) (error : JsValue) :
  1 ≤ maxRetries →
  operation 1%nat = rejected error →
  isZodError error = false →
  isNoObjectGeneratedError error = false →
  isTimeoutError error = false →
  isParsingError error = false ∧
  retryParsingOperation operation true maxRetries delayMs =
  {| completion := Rethrows error; invocations := 1; delays := [] |}.
Proof.
  intros Hmax Hop Hzod Hnoobj Htimeout.
  assert (Hparse : isParsingError error = false)
    by (unfold isParsingError; by rewrite Hzod, Hnoobj, Htimeout).
  split; [done|]. unfold retryParsingOperation.
  destruct (Z.to_nat maxRetries) as [|remaining] eqn:Hfuel; [lia|].
  simpl. by rewrite Hop, Hparse.
Qed.

End RetryProperties.

Section RetryRuns.
Import Js PromptUtils.

(** The retry bound at an operation that always fails validation. *)
Lemma retry_bound_witness :
  ∃ error,
    alwaysZodError 3%nat = rejected error ∧
    retryParsingOperation alwaysZodError true 3 10 =
    {| completion := Rethrows error; invocations := 3; delays := [10; 10] |}.
Proof.
  apply (retry_bound alwaysZodError 10).
  intros n. eexists. split; reflexivity.
Defined.

(** Five attempts, unrestricted, at an operation that always throws a
    [TypeError]. *)
Lemma retry_exhausts_witness :
  ∃ error,
    alwaysTypeError 5%nat = rejected error ∧
    retryParsingOperation alwaysTypeError false 5 250 =
    {| completion := Rethrows error; invocations := 5;
       delays := [250; 250; 250; 250] |}.
Proof.
  apply (retry_exhausts alwaysTypeError false 5 250); [lia|].
  intros n. eexists. split; reflexivity.
Defined.

(** An operation that succeeds at its second attempt. *)
Lemma retry_returns_first_success_witness :
  retryParsingOperation secondTimeLucky true 3 1000 =
  {| completion := Returns 7; invocations := 2; delays := [1000] |}.
Proof.
  apply (retry_returns_first_success secondTimeLucky true 3 1000 7 2);
    [lia | lia | reflexivity |].
  intros n Hn. assert (n = 1%nat) as -> by lia. eexists. split; reflexivity.
Defined.

(** The short circuit at an operation that always throws a [TypeError]. *)
Lemma retry_short_circuit_witness :
  isParsingError (ErrorObject "TypeError" "x is not a function" false) = false ∧
  retryParsingOperation alwaysTypeError true 3 1000 =
  {| completion := Rethrows (ErrorObject "TypeError" "x is not a function" false);
     invocations := 1; delays := [] |}.
Proof.
  apply (retry_short_circuit alwaysTypeError 3 1000); [lia | reflexivity ..].
Defined.

End RetryRuns.

(* ===================================================================== *)
(** ** Further properties of PromptUtils and of the prompt runner *)
(* ===================================================================== *)

Section RetryInvariants.
Import Js PromptUtils.
Context {T : Type}.
Variable operation : nat → PromiseSettledResult T.

(** One turn of the loop. *)
Lemma retryLoop_turn (retryOnly : bool) (maxRetries delayMs : Z)
    (remaining attempt : nat) (slept : list Z) :
  retryLoop operation retryOnly maxRetries delayMs (S remaining) attempt slept =
  match operation attempt with
  | fulfilled value =>
      {| completion := Returns value; invocations := attempt; delays := slept |}
  | rejected error =>
      if negb (negb retryOnly || isParsingError error)
         || bool_decide (Z.of_nat attempt = maxRetries)
      then {| completion := Rethrows error; invocations := attempt; delays := slept |}
      else retryLoop operation retryOnly maxRetries delayMs
             remaining (S attempt) (slept ++ [delayMs])
  end.
Proof. reflexivity. Qed.

(** What the loop keeps, from attempt [attempt] on with [r + 1] attempts
    left: it stops at some attempt in that range, having slept once per
    failed attempt before it; it ends as that attempt ended; and every
    attempt before it was rejected with an error that is retried. *)
Lemma retryLoop_invariant (retryOnly : bool) (maxRetries delayMs : Z)
    (r attempt : nat) (slept : list Z) :
  Z.of_nat (attempt + r) = maxRetries →
  (attempt ≤ invocations (retryLoop operation retryOnly maxRetries delayMs (S r) attempt slept)
   ≤ attempt + r)%nat ∧
  delays (retryLoop operation retryOnly maxRetries delayMs (S r) attempt slept)
  = slept ++ replicate
      (invocations (retryLoop operation retryOnly maxRetries delayMs (S r) attempt slept)
       - attempt) delayMs ∧
  match completion (retryLoop operation retryOnly maxRetries delayMs (S r) attempt slept) with
  | Returns value =>
      operation (invocations (retryLoop operation retryOnly maxRetries delayMs
                                (S r) attempt slept)) = fulfilled value
  | Rethrows error =>
      operation (invocations (retryLoop operation retryOnly maxRetries delayMs
                                (S r) attempt slept)) = rejected error
  end ∧
  ∀ n, (attempt ≤ n < invocations (retryLoop operation retryOnly maxRetries delayMs
                                      (S r) attempt slept))%nat →
       ∃ error, operation n = rejected error ∧
                negb retryOnly || isParsingError error = true.
Proof.
  revert attempt slept. induction r as [|r IH]; intros attempt slept Hlast;
    rewrite retryLoop_turn; destruct (operation attempt) as [value|error] eqn:Hop.
  - simpl. rewrite Nat.sub_diag, app_nil_r. repeat split; try lia; try done;
      try (intros n Hn; lia).
  - rewrite (bool_decide_eq_true_2 (Z.of_nat attempt = maxRetries)) by lia.
    rewrite orb_true_r. simpl. rewrite Nat.sub_diag, app_nil_r.
    repeat split; try lia; try done; try (intros n Hn; lia).
  - simpl. rewrite Nat.sub_diag, app_nil_r. repeat split; try lia; try done;
      try (intros n Hn; lia).
  - rewrite (bool_decide_eq_false_2 (Z.of_nat attempt = maxRetries)) by lia.
    rewrite orb_false_r.
    destruct (negb retryOnly || isParsingError error) eqn:Hretry; simpl negb; cbv iota.
    + destruct (IH (S attempt) (slept ++ [delayMs])) as (Hrange & Hdelays & Hend & Hbefore);
        [lia|].
      set (res := retryLoop operation retryOnly maxRetries delayMs (S r) (S attempt)
                    (slept ++ [delayMs])) in *.
      split; [lia|]. split.
      * rewrite Hdelays, <- (assoc_L (++)). f_equal.
        replace (invocations res - attempt)%nat with (S (invocations res - S attempt)) by lia.
        done.
      * split; [done|]. intros n Hn.
        destruct (decide (n = attempt)) as [->|Hne]; [eauto|]. apply Hbefore. lia.
    + simpl. rewrite Nat.sub_diag, app_nil_r.
      repeat split; try lia; try done; try (intros n Hn; lia).
Qed.

(** [retryParsingOperation] never invokes the operation more than
    [maxRetries] times (not at all when [maxRetries <= 0]), and it sleeps
    [delayMs] exactly once between two consecutive invocations: one
    delay fewer than invocations, all the same. *)
Theorem retry_attempts_bounded (retryOnly : bool) (maxRetries delayMs : Z) :
  (invocations (retryParsingOperation operation retryOnly maxRetries delayMs)
   ≤ Z.to_nat maxRetries)%nat ∧
  delays (retryParsingOperation operation retryOnly maxRetries delayMs)
  = replicate
      (invocations (retryParsingOperation operation retryOnly maxRetries delayMs) - 1)
      delayMs.
Proof.
  unfold retryParsingOperation.
  destruct (Z.to_nat maxRetries) as [|r] eqn:Hfuel; [by split|].
  destruct (retryLoop_invariant retryOnly maxRetries delayMs r 1 [])
    as (Hrange & Hdelays & _); [lia|].
  split; [lia|]. by rewrite Hdelays.
Qed.

(** When [maxRetries >= 1], the call ends exactly as its last invocation
    ended: it returns the value that invocation resolved with, or
    rethrows the error it rejected with; at least one invocation is
    made, and every invocation before the last was rejected with an
    error that is retried. *)
Theorem retry_ends_as_last_attempt (retryOnly : bool) (maxRetries delayMs : Z) :
  1 ≤ maxRetries →
  (1 ≤ invocations (retryParsingOperation operation retryOnly maxRetries delayMs))%nat ∧
  match completion (retryParsingOperation operation retryOnly maxRetries delayMs) with
  | Returns value =>
      operation (invocations (retryParsingOperation operation retryOnly maxRetries delayMs))
      = fulfilled value
  | Rethrows error =>
      operation (invocations (retryParsingOperation operation retryOnly maxRetries delayMs))
      = rejected error
  end ∧
  ∀ n, (1 ≤ n < invocations (retryParsingOperation operation retryOnly maxRetries delayMs))%nat →
       ∃ error, operation n = rejected error ∧
                negb retryOnly || isParsingError error = true.
Proof.
  intros Hmax. unfold retryParsingOperation.
  destruct (Z.to_nat maxRetries) as [|r] eqn:Hfuel; [lia|].
  destruct (retryLoop_invariant retryOnly maxRetries delayMs r 1 [])
    as (Hrange & _ & Hend & Hbefore); [lia|].
  split; [lia|]. by split.
Qed.

(** When [maxRetries <= 0] the operation is never invoked, and the call
    throws its own [Error('Retry operation failed')]. *)
Theorem retry_without_attempts (retryOnly : bool) (maxRetries delayMs : Z) :
  maxRetries ≤ 0 →
  retryParsingOperation operation retryOnly maxRetries delayMs =
  {| completion := Rethrows (new_Error "Retry operation failed");
     invocations := 0; delays := [] |}.
Proof.
  intros Hmax. unfold retryParsingOperation.
  by replace (Z.to_nat maxRetries) with 0%nat by lia.
Qed.

End RetryInvariants.

Section RunTaskProperties.
Import Js PromptUtils OpenRouterPromptRunner.
Context {T : Type}.
Variable generate : nat → PromiseSettledResult T.

(** What [retryParsingErrors] does to [runTask] when every attempt fails
    with an error that is no parsing error.  With the option absent
    (also with no [config] at all) or [true], the first error ends the
    call: one attempt, no delay.  With [retryParsingErrors: false] the
    error is retried like any other: three attempts, two delays of 1000
    ms, and the error of the third attempt is rethrown. *)
Theorem runTask_retry_flag (config : option TaskExecutionConfig) :
  (∀ n, ∃ error, generate n = rejected error ∧ isParsingError error = false) →
  ∃ first third,
    generate 1%nat = rejected first ∧ generate 3%nat = rejected third ∧
    runTask generate config =
    match config ≫= retryParsingErrors with
    | Some false =>
        {| completion := Rethrows third; invocations := 3; delays := [1000; 1000] |}
    | _ =>
        {| completion := Rethrows first; invocations := 1; delays := [] |}
    end.
Proof.
  intros Hfails.
  destruct (Hfails 1%nat) as (first & Hfirst & Hnp1).
  destruct (Hfails 2%nat) as (second & Hsecond & Hnp2).
  destruct (Hfails 3%nat) as (third & Hthird & Hnp3).
  exists first, third. split; [done|]. split; [done|].
  unfold runTask, retryParsingOperation.
  destruct (config ≫= retryParsingErrors) as [[|]|]; simpl;
    rewrite ?Hfirst, ?Hnp1; simpl; rewrite ?Hsecond; simpl; rewrite ?Hthird; done.
Qed.

End RunTaskProperties.

Section RunTaskRuns.
Import Js PromptUtils OpenRouterPromptRunner.

(** Three attempts are made under the configuration of
    [TestModelPromptTask]. *)
Lemma runTask_retry_flag_witness :
  ∃ first third,
    alwaysAborted 1%nat = rejected first ∧ alwaysAborted 3%nat = rejected third ∧
    runTask alwaysAborted TestModelPromptTask_getTaskConfig =
    {| completion := Rethrows third; invocations := 3; delays := [1000; 1000] |}.
Proof.
  apply (runTask_retry_flag alwaysAborted TestModelPromptTask_getTaskConfig).
  intros n. eexists. split; reflexivity.
Defined.

Lemma retry_ends_as_last_attempt_witness :
  (1 ≤ invocations (retryParsingOperation secondTimeLucky true 3 1000))%nat ∧
  match completion (retryParsingOperation secondTimeLucky true 3 1000) with
  | Returns value =>
      secondTimeLucky (invocations (retryParsingOperation secondTimeLucky true 3 1000))
      = fulfilled value
  | Rethrows error =>
      secondTimeLucky (invocations (retryParsingOperation secondTimeLucky true 3 1000))
      = rejected error
  end ∧
  ∀ n, (1 ≤ n < invocations (retryParsingOperation secondTimeLucky true 3 1000))%nat →
       ∃ error, secondTimeLucky n = rejected error ∧
                negb true || isParsingError error = true.
Proof. apply (retry_ends_as_last_attempt secondTimeLucky true 3 1000). lia. Defined.

Lemma retry_without_attempts_witness :
  retryParsingOperation alwaysZodError true 0 1000 =
  {| completion := Rethrows (new_Error "Retry operation failed");
     invocations := 0; delays := [] |}.
Proof. apply (retry_without_attempts alwaysZodError true 0 1000). lia. Defined.

End RunTaskRuns.

Section FixToolCallsProperties.
Import Js OpenRouterPromptRunner.

Lemma existsb_app_true {A : Type} (f : A → bool) (l1 l2 : list A) :
  existsb f (l1 ++ l2) = existsb f l1 || existsb f l2.
Proof. apply existsb_app. Qed.

Lemma find_isToolCall (l : list ContentPart) :
  existsb isToolCall l = true →
  ∃ name input, find isToolCall l = Some (ToolCallContent name input).
Proof.
  induction l as [|c l IH]; [done|]. simpl.
  destruct c as [text|name input|kind]; simpl; eauto.
Qed.

Lemma find_isToolCall_none (l : list ContentPart) :
  existsb isToolCall l = false → find isToolCall l = None.
Proof.
  induction l as [|c l IH]; [done|]. simpl.
  destruct c as [text|name input|kind]; simpl; eauto. done.
Qed.

(** The result after the fix, case by case. *)
Lemma fixToolCalls_cases (result : GenerateResult) :
  (fixToolCalls result = result ∧
   (existsb isText (content result) = true ∨
    finishReason result ≠ "tool-calls" ∨
    find isToolCall (content result) = None ∨
    ∃ name input, find isToolCall (content result) = Some (ToolCallContent name input) ∧
                  truthy input = false)) ∨
  (existsb isText (content result) = false ∧
   finishReason result = "tool-calls" ∧
   ∃ name input,
     find isToolCall (content result) = Some (ToolCallContent name input) ∧
     truthy input = true ∧
     fixToolCalls result =
     {| content := content result ++ [TextContent (inputText input)];
        finishReason := finishReason result |}).
Proof.
  unfold fixToolCalls.
  destruct (existsb isText (content result)) eqn:Htext; simpl; [left; eauto|].
  destruct (existsb isToolCall (content result)) eqn:Hcalls; simpl.
  - destruct (String.eqb_spec (finishReason result) "tool-calls") as [Hreason|Hreason];
      [|left; eauto].
    destruct (find_isToolCall _ Hcalls) as (name & input & Hfind). rewrite Hfind.
    destruct (truthy input) eqn:Htruthy.
    + right. split; [done|]. split; [done|]. eauto 10.
    + left. split; [done|]. right. right. right. eauto.
  - left. split; [done|]. right. right. left. by apply find_isToolCall_none.
Qed.

(** [fixToolCalls] only ever adds to a result: the finish reason and the
    parts already there are kept, in order, and at most one part is
    appended.  A part is appended exactly when the result has no text
    part, finished with [tool-calls], and the input of its first tool
    call is truthy; the part is then a text part holding that input (the
    string itself, or the JSON text of the object).  Only the first tool
    call is looked at. *)
Theorem fixToolCalls_appends_first_input (result : GenerateResult) :
  finishReason (fixToolCalls result) = finishReason result ∧
  (content (fixToolCalls result) = content result ∨
   ∃ name input,
     find isToolCall (content result) = Some (ToolCallContent name input) ∧
     content (fixToolCalls result) = content result ++ [TextContent (inputText input)]) ∧
  (content (fixToolCalls result) ≠ content result ↔
   existsb isText (content result) = false ∧
   finishReason result = "tool-calls" ∧
   ∃ name input,
     find isToolCall (content result) = Some (ToolCallContent name input) ∧
     truthy input = true).
Proof.
  destruct (fixToolCalls_cases result)
    as [[Hsame Hwhy]|(Htext & Hreason & name & input & Hfind & Htruthy & Hfixed)].
  - rewrite Hsame. split; [done|]. split; [by left|]. split; [done|].
    intros (Htext & Hreason & name & input & Hfind & Htruthy).
    destruct Hwhy as [Hwhy|[Hwhy|[Hwhy|(name' & input' & Hfind' & Hfalsy)]]];
      try congruence.
  - rewrite Hfixed. simpl. split; [done|]. split; [right; eauto|]. split; [eauto 10|].
    intros _ Heq. apply (f_equal length) in Heq. rewrite length_app in Heq.
    simpl in Heq. lia.
Qed.

(** Applying the fix to a fixed result changes nothing: the text part it
    appended keeps it from appending another. *)
Theorem fixToolCalls_idempotent (result : GenerateResult) :
  fixToolCalls (fixToolCalls result) = fixToolCalls result.
Proof.
  destruct (fixToolCalls_cases result)
    as [[Hsame _]|(_ & _ & name & input & _ & _ & Hfixed)].
  - by rewrite !Hsame.
  - rewrite Hfixed. unfold fixToolCalls at 1. simpl.
    rewrite existsb_app_true. simpl. by rewrite orb_true_r.
Qed.

(** After the fix, a result that finished with [tool-calls] and whose
    first tool call carries a truthy input always has a text part. *)
Theorem fixToolCalls_gives_text (result : GenerateResult) (name : string)
    (input : ToolInput) :
  finishReason result = "tool-calls" →
  find isToolCall (content result) = Some (ToolCallContent name input) →
  truthy input = true →
  existsb isText (content (fixToolCalls result)) = true.
Proof.
  intros Hreason Hfind Htruthy.
  destruct (fixToolCalls_cases result)
    as [[Hsame Hwhy]|(_ & _ & name' & input' & _ & _ & Hfixed)].
  - rewrite Hsame.
    destruct Hwhy as [Hwhy|[Hwhy|[Hwhy|(name' & input' & Hfind' & Hfalsy)]]];
      congruence.
  - rewrite Hfixed. simpl. rewrite existsb_app_true. simpl. by rewrite orb_true_r.
Qed.

Lemma fixToolCalls_gives_text_witness :
  existsb isText (content (fixToolCalls toolCallOnly)) = true.
Proof.
  apply (fixToolCalls_gives_text toolCallOnly "json" (InputString "{'title': 'Rye'}"));
    reflexivity.
Defined.

End FixToolCallsProperties.

Section ModelTableProperties.
Import Js OpenRouterPromptRunner.

Lemma MODEL_CONFIGS_lookup (m : ModelType) :
  ∃ cfg, MODEL_CONFIGS !! modelTypeValue m = Some cfg ∧
         modelName cfg ≠ "" ∧
         match reasoningEnabled cfg with
         | Some flag => flag = true ∧ is_Some (reasoningEffort cfg)
         | None => reasoningEffort cfg = None
         end.
Proof. destruct m; vm_compute; eexists; (split; [reflexivity|]); split; eauto; discriminate. Qed.

(** With an API key configured, [new OpenRouterPromptRunner(modelType)]
    succeeds for every member of [ModelType] and for no argument: the
    table [MODEL_CONFIGS], assembled from two partial tables, has an
    entry with a model name for each.  The provider options built from
    the entry ask for reasoning exactly when the entry enables it, always
    with the effort the entry configures (the fallback to [low] is never
    taken) and with the reasoning text excluded. *)
Theorem model_table_complete (openRouterApiKey : string) (modelType : option ModelType) :
  openRouterApiKey ≠ "" →
  ∃ runner,
    new_OpenRouterPromptRunner openRouterApiKey modelType = inr runner ∧
    MODEL_CONFIGS !! modelTypeValue (default DEFAULT_MODEL_TYPE modelType)
    = Some (modelConfig runner) ∧
    modelName (modelConfig runner) ≠ "" ∧
    match providerOptions runner with
    | Some options =>
        enabled options = true ∧ exclude options = true ∧
        reasoningEffort (modelConfig runner) = Some (effort options)
    | None => reasoningEnabled (modelConfig runner) = None
    end.
Proof.
  intros Hkey. unfold new_OpenRouterPromptRunner.
  destruct (String.eqb_spec openRouterApiKey "") as [|_]; [done|].
  destruct (MODEL_CONFIGS_lookup (default DEFAULT_MODEL_TYPE modelType))
    as (cfg & Hlookup & Hname & Hreasoning).
  simpl. rewrite Hlookup. eexists. split; [reflexivity|]. simpl.
  split; [done|]. split; [done|]. unfold providerOptions. simpl.
  destruct (reasoningEnabled cfg) as [flag|]; [|done].
  destruct Hreasoning as [-> [eff ->]]. done.
Qed.

Lemma model_table_complete_witness :
  ∃ runner,
    new_OpenRouterPromptRunner "sk-or-v1-0000" (Some GPT_OSS_20B_HIGH) = inr runner ∧
    MODEL_CONFIGS !! modelTypeValue GPT_OSS_20B_HIGH = Some (modelConfig runner) ∧
    modelName (modelConfig runner) ≠ "" ∧
    match providerOptions runner with
    | Some options =>
        enabled options = true ∧ exclude options = true ∧
        reasoningEffort (modelConfig runner) = Some (effort options)
    | None => reasoningEnabled (modelConfig runner) = None
    end.
Proof.
  apply (model_table_complete "sk-or-v1-0000" (Some GPT_OSS_20B_HIGH)). discriminate.
Defined.

End ModelTableProperties.

(* ===================================================================== *)
(** ** Properties of scripts/testModels.ts *)
(* ===================================================================== *)

Section TestModelsProperties.
Import Js AsyncRateLimiter OpenRouterPromptRunner TestModels.

(** The number of requests [k] positions after position [start]. *)
Lemma pushAttempts_spec (n : nat) (m : ModelType) (requests : list TestRequest) :
  requestModel <$> pushAttempts n m requests = (requestModel <$> requests) ++ replicate n m ∧
  id <$> pushAttempts n m requests
  = (id <$> requests) ++ ((λ k, Z.of_nat k + 1) <$> seq (length requests) n) ∧
  length (pushAttempts n m requests) = (length requests + n)%nat.
Proof.
  induction n as [|n (IHm & IHi & IHl)].
  - simpl. rewrite !app_nil_r, Nat.add_0_r. done.
  - unfold pushAttempts in *. simpl Nat.iter.
    rewrite !fmap_app, IHm, IHi, length_app, IHl.
    rewrite replicate_S_end, seq_S, fmap_app, !(assoc_L (++)). simpl.
    repeat split; try done; lia.
Qed.

Lemma foldl_pushAttempts (n : nat) (models : list ModelType) (requests : list TestRequest) :
  requestModel <$> foldl (λ requests m, pushAttempts n m requests) requests models
  = (requestModel <$> requests) ++ (models ≫= replicate n) ∧
  id <$> foldl (λ requests m, pushAttempts n m requests) requests models
  = (id <$> requests) ++
    ((λ k, Z.of_nat k + 1) <$> seq (length requests) (length models * n)).
Proof.
  revert requests. induction models as [|m models IH]; intros requests.
  - simpl. by rewrite !app_nil_r.
  - simpl foldl. destruct (IH (pushAttempts n m requests)) as [IHm IHi].
    destruct (pushAttempts_spec n m requests) as (Hm & Hi & Hl).
    rewrite IHm, IHi, Hm, Hi, Hl, bind_cons. simpl length.
    rewrite <- !(assoc_L (++)), <- fmap_app, <- seq_app.
    split; [done|]. done.
Qed.

Lemma createRequests_spec (selectedModels : list ModelType) (n : Z) :
  requestModel <$> createRequests selectedModels n
  = selectedModels ≫= replicate (Z.to_nat n) ∧
  id <$> createRequests selectedModels n
  = (λ k, Z.of_nat k + 1) <$> seq 0 (length selectedModels * Z.to_nat n).
Proof. apply (foldl_pushAttempts (Z.to_nat n) selectedModels []). Qed.

(** The requests [main] creates are numbered 1, 2, ... in the order in
    which they are created, without gaps, and list each selected model
    [attempts] times in a row, in the order of the models (none at all
    when [attempts <= 0]). *)
Theorem createRequests_numbered (selectedModels : list ModelType) (n : Z) :
  requestModel <$> createRequests selectedModels n
  = selectedModels ≫= replicate (Z.to_nat n) ∧
  id <$> createRequests selectedModels n
  = (λ k, Z.of_nat k + 1) <$> seq 0 (length selectedModels * Z.to_nat n) ∧
  length (createRequests selectedModels n) = (length selectedModels * Z.to_nat n)%nat.
Proof.
  destruct (createRequests_spec selectedModels n) as [Hm Hi].
  split; [exact Hm|]. split; [exact Hi|].
  apply (f_equal length) in Hi. by rewrite !length_fmap, length_seq in Hi.
Qed.

Lemma getSelectedModels_NoDup (params : ScriptParams) :
  NoDup (getSelectedModels params) ∧ getSelectedModels params ≠ [].
Proof.
  unfold getSelectedModels. destruct (all params).
  - split; [|done]. apply (bool_decide_unpack _). by vm_compute.
  - destruct (model params); split; try done; apply NoDup_singleton.
Qed.

Lemma filter_modelType_length (m : ModelType) (results : list TestResult) :
  length (filter (λ r, modelType r = m) results)
  = length (filter (λ x, x = m) (modelType <$> results)).
Proof.
  induction results as [|r results IH]; [done|]. rewrite fmap_cons, !filter_cons.
  destruct (decide (modelType r = m)); simpl; by rewrite IH.
Qed.

Lemma filter_replicate_eq (m m' : ModelType) (n : nat) :
  length (filter (λ x, x = m) (replicate n m')) = if decide (m' = m) then n else 0%nat.
Proof.
  induction n as [|n IH]; [by destruct (decide (m' = m))|].
  simpl replicate. rewrite filter_cons.
  destruct (decide (m' = m)); simpl; by rewrite IH.
Qed.

Lemma filter_nothing {A : Type} (P : A → Prop) `{!∀ x, Decision (P x)} (l : list A) :
  (∀ x, x ∈ l → ¬ P x) → filter P l = [].
Proof.
  intros Hnone. induction l as [|x l IH]; [done|].
  rewrite filter_cons, decide_False by (apply Hnone, list_elem_of_here).
  apply IH. intros y Hy. by apply Hnone, list_elem_of_further.
Qed.

(** In the list of the requests' models each selected model occurs
    [attempts] times. *)
Lemma attempts_per_model (models : list ModelType) (n : nat) (m : ModelType) :
  NoDup models → m ∈ models →
  length (filter (λ x, x = m) (models ≫= replicate n)) = n.
Proof.
  induction models as [|m' models IH]; intros Hnodup Hin; [by apply elem_of_nil in Hin|].
  apply NoDup_cons in Hnodup as [Hfresh Hnodup].
  rewrite bind_cons, filter_app, length_app, filter_replicate_eq.
  destruct (decide (m' = m)) as [->|Hne].
  - rewrite (filter_nothing (λ x, x = m) (models ≫= replicate n)); [simpl; lia|].
    intros x Hx ->.
    apply list_elem_of_bind in Hx as (y & Hy & Hymodels).
    apply elem_of_replicate in Hy as [-> _]. done.
  - apply elem_of_cons in Hin as [->|Hin]; [done|]. rewrite IH by done. lia.
Qed.

(** Every result has one of the three statuses. *)
Lemma status_partition (results : list TestResult) :
  (length (filter (λ r, status r = success) results)
   + length (filter (λ r, status r = partial) results)
   + length (filter (λ r, status r = failed) results) = length results)%nat.
Proof.
  induction results as [|r results IH]; [done|]. rewrite !filter_cons.
  destruct (status r); simpl;
    repeat (destruct (decide _) as [?|?]; try congruence); simpl; lia.
Qed.

(** Converting the failures of [processItems] never throws: every
    failure carries its item. *)
Lemma mapM_convertFailed {R : Type} (proc : TestRequest → PromiseSettledResult R)
    (items : list TestRequest) :
  ∃ converted,
    mapM convertFailed (omap (failureOf proc) items) = Some converted ∧
    length converted = length (omap (failureOf proc) items) ∧
    Forall (λ r, status r = failed) converted.
Proof.
  induction items as [|x items (converted & IH & Hlen & Hall)]; [by exists []|].
  cbn.
  assert (Hitem : ∀ f, failureOf proc x = Some f → item f = Some x).
  { unfold failureOf. destruct (proc x); by intros ? [= <-]. }
  destruct (failureOf proc x) as [f|]; [|eauto].
  cbn. rewrite IH. unfold convertFailed. rewrite (Hitem f eq_refl). cbn.
  eexists. split; [reflexivity|]. split; [cbn; lia|]. by constructor.
Qed.

(** Whatever the processor does, [main] gets exactly one result per
    request out of [processItems]: turning the failures into results
    never throws (no failure lacks its item), the combined list is as
    long as the list of requests, and in each row of the statistics
    successes, partial successes and failures add up to the total. *)
Theorem summarize_accounts_for_every_request (settles : nat → nat)
    (proc : TestRequest → PromiseSettledResult TestResult)
    (allRequests : list TestRequest) (rateLimiter : Bottleneck)
    (selectedModels : list ModelType) :
  ∃ allResults,
    summarize selectedModels
      (fst (processItems settles allRequests proc rateLimiter))
    = Some (allResults, statsFor allResults <$> selectedModels) ∧
    length allResults = length allRequests ∧
    Forall (λ row, (successes row + partials row + failures row = totalCalls row)%nat ∧
                   (totalCalls row ≤ length allRequests)%nat)
           (statsFor allResults <$> selectedModels).
Proof.
  rewrite processItems_spec. unfold summarize. simpl.
  destruct (mapM_convertFailed proc allRequests) as (converted & Hconv & Hlen & _).
  rewrite Hconv. simpl. eexists. split; [reflexivity|].
  assert (Htotal : length (omap valueOf (proc <$> allRequests) ++ converted)
                   = length allRequests).
  { rewrite length_app, Hlen. apply outcomes_partition. }
  split; [exact Htotal|].
  apply Forall_fmap, Forall_forall. intros m _. simpl. split.
  - apply status_partition.
  - rewrite <- Htotal. apply length_filter.
Qed.

Lemma processor_results (env : Environment) (requests : list TestRequest) :
  omap valueOf (processor env <$> requests)
  = (λ request, testModelWithPrompt (tried env request) (started env request)
                  (finished env request) (requestModel request) (id request))
    <$> requests ∧
  omap (failureOf (processor env)) requests = [].
Proof.
  induction requests as [|x requests [IHs IHf]]; [done|]. split.
  - rewrite !fmap_cons. cbn. f_equal. exact IHs.
  - cbn. exact IHf.
Qed.

(** [main] always reaches its report (nothing it computes throws), with
    one result per request, in the order of the requests and under the
    request's number and model: a request whose attempt throws is
    reported with status ['failed'] by [testModelWithPrompt], never as a
    failure of [processItems].  The statistics have one row per selected
    model, in order, and every row counts exactly [attempts] calls. *)
Theorem main_reports_attempts_per_model (settles : nat → nat) (env : Environment)
    (params : ScriptParams) :
  ∃ allResults stats,
    main settles env params = Some (allResults, stats) ∧
    allResults
    = (λ request, testModelWithPrompt (tried env request) (started env request)
                    (finished env request) (requestModel request) (id request))
      <$> createRequests (getSelectedModels params) (attempts params) ∧
    requestId <$> allResults
    = (λ k, Z.of_nat k + 1)
      <$> seq 0 (length (getSelectedModels params) * Z.to_nat (attempts params)) ∧
    statsModel <$> stats = getSelectedModels params ∧
    Forall (λ row, totalCalls row = Z.to_nat (attempts params) ∧
                   (successes row + partials row + failures row = totalCalls row)%nat)
           stats.
Proof.
  unfold main. change (constructor rateLimiterConfig) with (Built
    (new_Bottleneck {| bn_maxConcurrent := 5; reservoir := 20;
                       reservoirRefreshAmount := 20;
                       reservoirRefreshInterval := 10000; bn_minTime := 500 |})).
  cbv iota. rewrite processItems_spec. unfold summarize. simpl.
  destruct (processor_results env
              (createRequests (getSelectedModels params) (attempts params)))
    as [Hsucc Hfail].
  rewrite Hsucc, Hfail. simpl. rewrite app_nil_r.
  destruct (createRequests_spec (getSelectedModels params) (attempts params))
    as (Hmodels & Hids).
  destruct (getSelectedModels_NoDup params) as [Hnodup _].
  eexists _, _. split; [reflexivity|]. split; [reflexivity|]. split.
  { rewrite <- list_fmap_compose, <- Hids. apply list_fmap_ext. intros ? request _.
    unfold compose, testModelWithPrompt. by destruct (tried env request). }
  split.
  { rewrite <- list_fmap_compose. simpl. apply list_fmap_id. }
  apply Forall_fmap, Forall_forall. intros m Hm. simpl. split; [|apply status_partition].
  rewrite filter_modelType_length, <- list_fmap_compose.
  assert (Hsame : (modelType ∘ (λ request,
              testModelWithPrompt (tried env request) (started env request)
                (finished env request) (requestModel request) (id request)))
            <$> createRequests (getSelectedModels params) (attempts params)
            = requestModel <$> createRequests (getSelectedModels params) (attempts params)).
  { apply list_fmap_ext. intros ? request _.
    unfold compose, testModelWithPrompt. by destruct (tried env request). }
  rewrite Hsame, Hmodels. by apply attempts_per_model.
Qed.

(** [validateModelResponse] answers ['success'] exactly for a response
    with a list of exactly five classifications in each of which
    activity, category and reasoning are present and at least three
    characters long; it answers ['partial'] otherwise, never
    ['failed']. *)
Theorem validateModelResponse_success (response : CognitiveEffortOutput) :
  (validateModelResponse response = success ↔
   ∃ cs, classifications response = Some cs ∧ length cs = 5%nat ∧
         Forall (λ c, ∃ a k r,
                   activity c = Some a ∧ category c = Some k ∧
                   TestModels.reasoning c = Some r ∧
                   (3 ≤ String.length a)%nat ∧ (3 ≤ String.length k)%nat ∧
                   (3 ≤ String.length r)%nat) cs) ∧
  validateModelResponse response ≠ failed.
Proof.
  assert (Hloop : ∀ cs,
    (validateClassifications cs = success ↔
     Forall (λ c, ∃ a k r,
               activity c = Some a ∧ category c = Some k ∧
               TestModels.reasoning c = Some r ∧
               (3 ≤ String.length a)%nat ∧ (3 ≤ String.length k)%nat ∧
               (3 ≤ String.length r)%nat) cs) ∧
    validateClassifications cs ≠ failed).
  { induction cs as [|c cs [IH IHnf]]; [by split|]. simpl.
    destruct (incomplete c) eqn:Hinc.
    - split; [|done]. split; [done|]. intros Hall. apply Forall_cons_1 in Hall as [Hc _].
      destruct Hc as (a & k & r & Ha & Hk & Hr & Hla & Hlk & Hlr).
      unfold incomplete in Hinc. rewrite Ha, Hk, Hr in Hinc. simpl in Hinc.
      destruct a, k, r; simpl in *; try lia.
      repeat (apply orb_true_iff in Hinc as [Hinc|Hinc]);
        try discriminate; apply Nat.ltb_lt in Hinc; lia.
    - split; [|done]. rewrite IH. split.
      + intros Hall. constructor; [|done].
        unfold incomplete in Hinc.
        repeat (apply orb_false_iff in Hinc as [Hinc ?]).
        destruct (activity c) as [a|], (category c) as [k|],
          (TestModels.reasoning c) as [r|]; try discriminate.
        exists a, k, r. simpl in *.
        repeat match goal with H : (_ <? _)%nat = false |- _ =>
          apply Nat.ltb_ge in H end.
        by repeat split.
      + by intros [_ Hall]%Forall_cons_1. }
  unfold validateModelResponse.
  destruct (classifications response) as [cs|].
  - destruct (Nat.eqb_spec (length cs) 5) as [Hlen|Hlen]; simpl.
    + destruct (Hloop cs) as [Hiff Hnf]. split; [|done]. rewrite Hiff. split.
      * intros Hall. exists cs. by split.
      * by intros (cs' & [= <-] & _ & Hall).
    + split; [|done]. split; [done|]. intros (cs' & [= <-] & Hlen' & _). done.
  - split; [|done]. split; [done|]. by intros (cs & [=] & _).
Qed.

End TestModelsProperties.

(* ===================================================================== *)
(** ** Properties of ScriptSaveService *)
(* ===================================================================== *)

Section ScriptSaveServiceProperties.
Import ScriptSaveService.

Lemma list_ascii_app (a b : string) :
  String.list_ascii_of_string (a +:+ b)
  = String.list_ascii_of_string a ++ String.list_ascii_of_string b.
Proof. induction a as [|c a IH]; [done|]. simpl. by rewrite IH. Qed.

Lemma endsWith_app_r (a b suffix : string) :
  endsWith b suffix = true → endsWith (a +:+ b) suffix = true.
Proof.
  unfold endsWith. rewrite !bool_decide_eq_true, list_ascii_app.
  apply suffix_app_r.
Qed.

Lemma endsWith_app (a b : string) : endsWith (a +:+ b) b = true.
Proof. apply endsWith_app_r. unfold endsWith. by apply bool_decide_eq_true. Qed.

Lemma given_Some (s : option string) (text : string) :
  given s = Some text ↔ s = Some text ∧ text ≠ "".
Proof.
  unfold given. destruct s as [t|]; [|by split; [|intros [? _]]].
  destruct (String.eqb_spec t "") as [->|Hne]; split.
  - done.
  - by intros [[= <-] ?].
  - by intros [= <-].
  - by intros [[= <-] _].
Qed.

Lemma append_nonempty (a b : string) : a ≠ "" → a +:+ b ≠ "".
Proof. by destruct a. Qed.

(** A custom name after the extension was made sure of. *)
Lemma customName_ends (name ext : string) :
  name ≠ "" →
  endsWith (if endsWith name ext then name else name +:+ ext) ext = true ∧
  (if endsWith name ext then name else name +:+ ext) ≠ "".
Proof.
  intros Hne. destruct (endsWith name ext) eqn:Hends; [by split|].
  split; [apply endsWith_app | by apply append_nonempty].
Qed.

(** Every file name [generateFilename] produces ends with the extension
    of the requested format, whether it is built from a custom name or
    from prefix and timestamp, and it is never empty. *)
Theorem generateFilename_extension (iso : string) (options : SaveOptions) :
  endsWith (generateFilename iso options) (getFileExtension (format options)) = true ∧
  generateFilename iso options ≠ "".
Proof.
  unfold generateFilename.
  destruct (given (fileName options)) as [name|] eqn:Hname.
  - apply given_Some in Hname as [_ Hne]. by apply customName_ends.
  - split; [apply endsWith_app_r, endsWith_app|].
    assert (Hprefix : default "data" (given (filePrefix options)) ≠ "").
    { destruct (given (filePrefix options)) as [p|] eqn:Hp; [|done].
      by apply given_Some in Hp as [_ ?]. }
    by apply append_nonempty.
Qed.

(** A custom file name is used as it is when it already ends with the
    extension of the format, and gets the extension appended, once,
    when it does not: feeding the produced name back as the custom name
    yields it unchanged, whatever the time, so that the extension is
    never doubled. *)
Theorem generateFilename_custom_stable (iso iso' : string) (options : SaveOptions)
    (name : string) :
  given (fileName options) = Some name →
  (endsWith name (getFileExtension (format options)) = true →
   generateFilename iso options = name) ∧
  (endsWith name (getFileExtension (format options)) = false →
   generateFilename iso options = name +:+ getFileExtension (format options)) ∧
  generateFilename iso'
    {| format := format options; filePrefix := filePrefix options;
       fileName := Some (generateFilename iso options);
       subfolder := subfolder options; timestampFormat := timestampFormat options;
       encoding := encoding options |}
  = generateFilename iso options.
Proof.
  intros Hname.
  assert (Hresult : generateFilename iso options
                    = if endsWith name (getFileExtension (format options))
                      then name else name +:+ getFileExtension (format options))
    by (unfold generateFilename; by rewrite Hname).
  destruct (customName_ends name (getFileExtension (format options)))
    as [Hends Hne]; [by apply given_Some in Hname as [_ ?]|].
  rewrite <- Hresult in Hends, Hne. split; [|split].
  - intros Hext. by rewrite Hresult, Hext.
  - intros Hext. by rewrite Hresult, Hext.
  - unfold generateFilename at 1. cbn [fileName format].
    rewrite (proj2 (given_Some _ _) (conj eq_refl Hne)). by rewrite Hends.
Qed.

(** The name [report] of a Markdown file becomes [report.md], and
    [report.md] stays as it is. *)
Lemma generateFilename_custom_stable_witness :
  (endsWith "report" ".md" = true →
   generateFilename "2025-01-02T03:04:05.678Z" reportOptions = "report") ∧
  (endsWith "report" ".md" = false →
   generateFilename "2025-01-02T03:04:05.678Z" reportOptions = "report" +:+ ".md") ∧
  generateFilename "2026-06-07T08:09:10.111Z"
    {| format := MARKDOWN; filePrefix := None;
       fileName := Some (generateFilename "2025-01-02T03:04:05.678Z" reportOptions);
       subfolder := None; timestampFormat := None; encoding := None |}
  = generateFilename "2025-01-02T03:04:05.678Z" reportOptions.
Proof.
  apply (generateFilename_custom_stable "2025-01-02T03:04:05.678Z"
           "2026-06-07T08:09:10.111Z" reportOptions "report").
  reflexivity.
Defined.

Lemma colonFree_app (a b : string) : colonFree a → colonFree b → colonFree (a +:+ b).
Proof.
  unfold colonFree. rewrite list_ascii_app, elem_of_app. tauto.
Qed.

Lemma colonFree_replaceColons (s : string) : colonFree (replaceColons s).
Proof.
  unfold colonFree. induction s as [|c s IH]; simpl; [apply not_elem_of_nil|].
  apply not_elem_of_cons. split; [|done].
  destruct (Ascii.eqb_spec c ":"); [done|congruence].
Qed.

Lemma colonFree_extension (fmt : SaveFormat) : colonFree (getFileExtension fmt).
Proof.
  unfold colonFree. destruct fmt; simpl;
    repeat (apply not_elem_of_cons; split; [done|]); apply not_elem_of_nil.
Qed.

(** A generated file name (no custom name given) holds no colon when the
    prefix holds none: every colon of the ISO timestamp is replaced, so
    the name is valid on file systems that refuse colons. *)
Theorem generateFilename_colonFree (iso : string) (options : SaveOptions) :
  given (fileName options) = None →
  colonFree (default "data" (given (filePrefix options))) →
  colonFree (generateFilename iso options).
Proof.
  intros Hname Hprefix. unfold generateFilename. rewrite Hname.
  apply colonFree_app; [done|].
  apply colonFree_app; [|apply colonFree_extension].
  assert (Hdash : colonFree ("-" +:+ replaceColons iso)).
  { apply colonFree_app; [|apply colonFree_replaceColons].
    unfold colonFree. simpl. apply not_elem_of_cons. split; [done|apply not_elem_of_nil]. }
  destruct (timestampFormat options) as [[[|]|pattern]|]; try done.
  unfold colonFree. simpl. apply not_elem_of_nil.
Qed.

Lemma generateFilename_colonFree_witness :
  colonFree (generateFilename "2025-01-02T03:04:05.678Z" testModelsOptions).
Proof.
  apply (generateFilename_colonFree "2025-01-02T03:04:05.678Z" testModelsOptions).
  - reflexivity.
  - unfold colonFree. simpl. intros Hin.
    repeat (apply elem_of_cons in Hin as [Hin|Hin]; [discriminate Hin|]).
    by apply elem_of_nil in Hin.
Defined.

End ScriptSaveServiceProperties.

(* ===================================================================== *)
(** ** Properties of BreadRecipeAgentService *)
(* ===================================================================== *)

Section ProcessAgentResultProperties.
Import BreadRecipeAgentService.
Context {Recipe : Type}.

Lemma find_first_answer (before after : list (ToolCall Recipe)) (call : ToolCall Recipe) :
  Forall (λ c, toolName c ≠ "answer") before → toolName call = "answer" →
  find (λ c, String.eqb (toolName c) "answer") (before ++ call :: after) = Some call.
Proof.
  intros Hbefore Hcall. induction Hbefore as [|c before Hc _ IH]; simpl.
  - by rewrite Hcall.
  - destruct (String.eqb_spec (toolName c) "answer"); [done|exact IH].
Qed.

Lemma find_no_answer (calls : list (ToolCall Recipe)) :
  Forall (λ c, toolName c ≠ "answer") calls →
  find (λ c, String.eqb (toolName c) "answer") calls = None.
Proof.
  intros Hcalls. induction Hcalls as [|c calls Hc _ IH]; [done|]. simpl.
  destruct (String.eqb_spec (toolName c) "answer"); [done|exact IH].
Qed.

(** [processAgentResult] looks at the first tool call named [answer]
    only: the agent succeeds, with the input of that call as the
    recipe, exactly when that input is truthy, and fails when it is
    missing or falsy ([null], [false], [0], the empty string), whatever
    calls follow (a later [answer] call with a recipe is not used).
    Without any [answer] call, or without tool calls at all, it fails.
    A successful output has a truthy recipe and no error, a failed one
    the error and no recipe. *)
Theorem processAgentResult_first_answer (before after : list (ToolCall Recipe))
    (call : ToolCall Recipe) :
  Forall (λ c, toolName c ≠ "answer") before → toolName call = "answer" →
  processAgentResult (Some (before ++ call :: after)) =
  (if truthy (input call)
   then {| recipe := Some (input call); success := true; error := None |}
   else {| recipe := None; success := false;
           error := Some "Agent completed but did not call the answer tool" |}) ∧
  (success (processAgentResult (Some (before ++ call :: after))) = true ↔
   truthy (input call) = true) ∧
  processAgentResult (Some before) = processAgentResult (@None (list (ToolCall Recipe))) ∧
  processAgentResult (Some before) =
  {| recipe := None; success := false;
     error := Some "Agent completed but did not call the answer tool" |}.
Proof.
  intros Hbefore Hcall.
  assert (Hfirst : processAgentResult (Some (before ++ call :: after)) =
    (if truthy (input call)
     then {| recipe := Some (input call); success := true; error := None |}
     else {| recipe := None; success := false;
             error := Some "Agent completed but did not call the answer tool" |})).
  { unfold processAgentResult. simpl.
    rewrite (find_first_answer _ _ _ Hbefore Hcall).
    unfold extractAnswerData, isAnswerToolCall. rewrite Hcall. simpl.
    by destruct (input call). }
  split; [exact Hfirst|]. split.
  - rewrite Hfirst. by destruct (truthy (input call)).
  - unfold processAgentResult. simpl. by rewrite (find_no_answer _ Hbefore).
Qed.

End ProcessAgentResultProperties.

Section ProcessAgentResultRuns.
Import BreadRecipeAgentService.

(** An [answer] call whose input is the empty string shadows a later
    one with a recipe: the agent fails. *)
Lemma processAgentResult_first_answer_witness :
  processAgentResult
    (Some ([{| toolName := "getBreadTypes"; input := UndefinedInput |}] ++
           {| toolName := "answer"; input := StringInput "" |} ::
           [{| toolName := "answer"; input := ObjectInput ryeBread |}])) =
  {| recipe := None; success := false;
     error := Some "Agent completed but did not call the answer tool" |} ∧
  (success (processAgentResult
    (Some ([{| toolName := "getBreadTypes"; input := UndefinedInput |}] ++
           {| toolName := "answer"; input := StringInput "" |} ::
           [{| toolName := "answer"; input := ObjectInput ryeBread |}]))) = true ↔
   truthy (@StringInput AnswerToolInput "") = true) ∧
  processAgentResult
    (Some [{| toolName := "getBreadTypes"; input := @UndefinedInput AnswerToolInput |}])
  = processAgentResult (@None (list (ToolCall AnswerToolInput))) ∧
  processAgentResult
    (Some [{| toolName := "getBreadTypes"; input := @UndefinedInput AnswerToolInput |}]) =
  {| recipe := None; success := false;
     error := Some "Agent completed but did not call the answer tool" |}.
Proof.
  apply (processAgentResult_first_answer
           [{| toolName := "getBreadTypes"; input := UndefinedInput |}]
           [{| toolName := "answer"; input := ObjectInput ryeBread |}]
           {| toolName := "answer"; input := StringInput "" |}).
  - by repeat constructor.
  - reflexivity.
Defined.

End ProcessAgentResultRuns.

(* ===================================================================== *)
(** ** The order of the request log *)
(* ===================================================================== *)

Section LogOrder.
Import SyncRateLimiter.
Variable config : syncRateLimiterConfig.

Lemma prune_sorted (now : Z) (times : list Z) :
  StronglySorted Z.le times → StronglySorted Z.le (prune config now times).
Proof.
  unfold prune. induction 1 as [|t times Hsorted IH Hall]; [constructor|].
  rewrite filter_cons. destruct (decide (now - t < rateLimitWindow config)); [|done].
  constructor; [done|]. rewrite Forall_forall in *.
  intros x [_ Hx]%list_elem_of_filter. by apply Hall.
Qed.

Lemma log_order_step (self : SyncRateLimiter) (now resumed : Z) :
  StronglySorted Z.le (requestTimes self) → logInPast self →
  lastRequestTime self ≤ now → now ≤ resumed →
  StronglySorted Z.le (requestTimes (limiter (waitForRateLimit config self now resumed))) ∧
  logInPast (limiter (waitForRateLimit config self now resumed)).
Proof.
  intros Hsorted Hpast Hnow Hres. split; [|by apply logInPast_step].
  rewrite waitForRateLimit_log.
  destruct (overLimit config _); [repeat constructor|].
  apply StronglySorted_app_2; [|by apply prune_sorted|repeat constructor].
  intros t ? [_ Ht]%prune_elem ->%list_elem_of_singleton.
  unfold logInPast in Hpast. rewrite Forall_forall in Hpast.
  specialize (Hpast t Ht). lia.
Qed.

Lemma sorted_head_least (times : list Z) (oldest : Z) :
  StronglySorted Z.le times → oldestRequest times = Some oldest →
  ∀ t, t ∈ times → oldest ≤ t.
Proof.
  intros Hsorted Hhead t Ht. destruct times as [|o times]; [done|].
  injection Hhead as ->. apply StronglySorted_inv in Hsorted as [_ Hall].
  apply elem_of_cons in Ht as [->|Ht]; [lia|].
  rewrite Forall_forall in Hall. by apply Hall.
Qed.

Lemma calls_sorted (self : SyncRateLimiter) (clock : list (Z * Z)) :
  StronglySorted Z.le (requestTimes self) → logInPast self →
  monotonic (lastRequestTime self) clock →
  Forall (λ a, StronglySorted Z.le (requestTimes (limiter a)) ∧ logInPast (limiter a))
         (calls config self clock).
Proof.
  revert self. induction clock as [|[now resumed] clock IH];
    intros self Hsorted Hpast Hmono; simpl; [constructor|].
  destruct Hmono as (Hnow & Hres & Hmono).
  destruct (log_order_step self now resumed Hsorted Hpast Hnow Hres) as [Hsorted' Hpast'].
  constructor; [done|]. apply IH; try done. by rewrite waitForRateLimit_last.
Qed.

(** On a clock that does not run backwards the request log is always in
    ascending order and ends with the time of the last admission.  So
    [requestTimes[0]], which the over-limit branch takes for the oldest
    request, is the least entry of the log, also after pruning at any
    later time. *)
Theorem log_ascending (clock : list (Z * Z)) :
  monotonic 0 clock →
  Forall (λ a,
            StronglySorted Z.le (requestTimes (limiter a)) ∧
            last (requestTimes (limiter a)) = Some (lastRequestTime (limiter a)) ∧
            ∀ now oldest,
              oldestRequest (prune config now (requestTimes (limiter a))) = Some oldest →
              ∀ t, t ∈ prune config now (requestTimes (limiter a)) → oldest ≤ t)
         (calls config initial clock).
Proof.
  intros Hmono.
  assert (Hlast : ∀ self clock',
            Forall (λ a, last (requestTimes (limiter a)) = Some (lastRequestTime (limiter a)))
                   (calls config self clock')).
  { intros self clock'. revert self.
    induction clock' as [|[now resumed] clock' IH]; intros self; simpl; constructor.
    - rewrite waitForRateLimit_log, waitForRateLimit_last. apply last_snoc.
    - apply IH. }
  pose proof (calls_sorted initial clock (SSorted_nil _) (Forall_nil_2 _) Hmono) as Hsorted.
  specialize (Hlast initial clock).
  rewrite Forall_forall in *. intros a Ha.
  destruct (Hsorted a Ha) as [Hs _]. split; [done|]. split; [by apply Hlast|].
  intros now oldest Hold t Ht.
  apply (sorted_head_least (prune config now (requestTimes (limiter a)))); try done.
  by apply prune_sorted.
Qed.

End LogOrder.

Section LogOrderRuns.
Import SyncRateLimiter.

Lemma log_ascending_witness :
  Forall (λ a,
            StronglySorted Z.le (requestTimes (limiter a)) ∧
            last (requestTimes (limiter a)) = Some (lastRequestTime (limiter a)) ∧
            ∀ now oldest,
              oldestRequest (prune burstConfig now (requestTimes (limiter a))) = Some oldest →
              ∀ t, t ∈ prune burstConfig now (requestTimes (limiter a)) → oldest ≤ t)
         (calls burstConfig initial burstClock).
Proof. apply (log_ascending burstConfig burstClock). apply burst_environment. Defined.

End LogOrderRuns.
